(** * RAG evaluation pipeline ([ragas-evaluation.py]): model and properties

    The development embeds the evaluator class [RagasEvaluator] and the
    [main] pipeline of [ragas-evaluation.py].

    - Python numbers are modelled by their numeric value, a rational [Q]:
      the int [0] and the float [0.0] are the same value, as they are for
      Python's [==].  Every operation that produces a float is the exact
      operation followed by [rnd], rounding to the nearest binary64 value
      with ties to even.
    - Python exceptions are modelled by the error monad [res].
    - Python sets and the role-keyed dictionaries are [gset] and [gmap];
      dictionaries with a fixed set of keys are records.  The insertion
      order of a dictionary is not modelled: no result depends on it.
    - The input is a JSON document whose keys, when present, hold values
      of the documented types; an absent key is [None].
    - Strings are sequences of code points below 256, on which
      [str.lower] and [str.split] are modelled exactly.
    - The external scorer and the clock are parameters ([Env]); printing
      is left out, and the exports are modelled up to the document and
      the rows that they hand to the serializers. *)

From Stdlib Require Import ZArith QArith Qminmax Lia Ascii String.
From stdpp Require Import gmap strings list fin_maps.

Local Open Scope Z_scope.

(** ** Binary64 arithmetic on numeric values *)

Module Float64.

(** Round [n / d] (with [0 < d]) to the nearest integer, ties to even. *)
Definition rhe_div (n d : Z) : Z :=
  let q := n / d in
  let r := n mod d in
  match (2 * r ?= d) with
  | Lt => q
  | Gt => q + 1
  | Eq => if Z.even q then q else q + 1
  end.

Definition rhe (x : Q) : Z := rhe_div (Qnum x) (Zpos (Qden x)).

(** [ilog2 n d] is the floor of the binary logarithm of [n / d],
    for [0 < n] and [0 < d]. *)
Definition ilog2 (n d : Z) : Z :=
  let g := Z.log2 n - Z.log2 d in
  if 0 <=? g
  then (if d * 2 ^ g <=? n then g else g - 1)
  else (if d <=? n * 2 ^ (- g) then g else g - 1).

(** The binary64 exponent and significand of the positive rational
    [n / d]: the significand [m] has at most 53 bits and the exponent [e]
    is no smaller than that of the subnormal numbers.  The upper end of
    the exponent range is not modelled: no quantity of the pipeline comes
    near [2 ^ 1024]. *)
Definition exponent (n d : Z) : Z := Z.max (ilog2 n d - 52) (-1074).

Definition significand (n d : Z) : Z :=
  let e := exponent n d in
  if 0 <=? e then rhe_div n (d * 2 ^ e) else rhe_div (n * 2 ^ (- e)) d.

(** The nearest binary64 value of [n / d], that is [m * 2 ^ e]. *)
Definition rnd_pos (n d : Z) : Q :=
  let e := exponent n d in
  let m := significand n d in
  if 0 <=? e then inject_Z (m * 2 ^ e) else Qmake m (Z.to_pos (2 ^ (- e))).

(** [rnd x]: the binary64 value nearest to [x], as a reduced fraction. *)
Definition rnd (x : Q) : Q :=
  match Qnum x with
  | Z0 => 0%Q
  | Zpos n => Qred (rnd_pos (Zpos n) (Zpos (Qden x)))
  | Zneg n => Qred (Qopp (rnd_pos (Zpos n) (Zpos (Qden x))))
  end.

(** Python's [round(x, 3)] on a float: the value is rounded to three
    decimal digits (ties to even, on the exact binary value) and the
    decimal result is converted back to the nearest float.  On the int
    [0] it returns [0], which is the same value. *)
Definition round3 (x : Q) : Q := rnd (Qmake (rhe (x * 1000)) 1000).

End Float64.
Export Float64.

(** ** Python values, exceptions and built-ins *)

Inductive exn : Type :=
  | ZeroDivisionError
  | StatisticsError
  | KeyError (key : string)
  | TypeError
  | FileNotFoundError.

(** The outcome of a Python call: a value, or a raised exception. *)
Inductive res (A : Type) : Type :=
  | Ok (a : A)
  | Raise (e : exn).
Arguments Ok {A} a.
Arguments Raise {A} e.

Definition res_bind {A B : Type} (f : A → res B) (m : res A) : res B :=
  match m with
  | Ok a => f a
  | Raise e => Raise e
  end.

#[export] Instance res_mbind : MBind res := @res_bind.
#[export] Instance res_mret : MRet res := @Ok.

(** A [for] loop threading a state through a list, stopping at the first
    exception. *)
Fixpoint for_each {S A : Type} (body : S → A → res S) (s : S) (l : list A)
  : res S :=
  match l with
  | [] => Ok s
  | x :: l' => s' ← body s x; for_each body s' l'
  end.

Module Py.

(** [str.isspace] on one code point below 256. *)
Definition isspace (c : ascii) : bool :=
  let n := N_of_ascii c in
  ((9 <=? n) && (n <=? 13) || (28 <=? n) && (n <=? 32)
   || (n =? 133) || (n =? 160))%N.

(** [str.lower] on one code point below 256. *)
Definition lower_char (c : ascii) : ascii :=
  let n := N_of_ascii c in
  if ((65 <=? n) && (n <=? 90)
      || (192 <=? n) && (n <=? 222) && negb (n =? 215))%N
  then ascii_of_N (n + 32)
  else c.

Fixpoint lower (s : string) : string :=
  match s with
  | EmptyString => EmptyString
  | String c s' => String (lower_char c) (lower s')
  end.

(** The pending token of [split] is kept reversed in [cur]. *)
Definition flush (cur : list ascii) (rest : list string) : list string :=
  match cur with
  | [] => rest
  | _ => string_of_list_ascii (rev cur) :: rest
  end.

Fixpoint split_from (cur : list ascii) (s : string) : list string :=
  match s with
  | EmptyString => flush cur []
  | String c s' =>
      if isspace c then flush cur (split_from [] s')
      else split_from (c :: cur) s'
  end.

(** [s.split()]: the maximal runs of non-whitespace characters. *)
Definition split (s : string) : list string := split_from [] s.

(** [sep.join(l)]. *)
Fixpoint join (sep : string) (l : list string) : string :=
  match l with
  | [] => EmptyString
  | [x] => x
  | x :: l' => (x ++ sep ++ join sep l')%string
  end.

(** [len(s)] of a string and of a list, as Python ints. *)
Definition len_str (s : string) : Z := Z.of_nat (String.length s).
Definition len {A : Type} (l : list A) : Z := Z.of_nat (length l).

(** Truthiness of a string and of a list. *)
Definition truthy_str (s : string) : bool :=
  match s with EmptyString => false | _ => true end.
Definition truthy_list {A : Type} (l : list A) : bool :=
  match l with [] => false | _ => true end.

(** True division [x / y].  The operands are ints, or a float and an
    int that a float holds exactly ([500], [10]), so the result is the
    exact quotient rounded once. *)
Definition truediv (x y : Q) : res Q :=
  if Qeq_bool y 0 then Raise ZeroDivisionError else Ok (rnd (x / y)).

(** [min(x, y)]: [x] unless [y] is strictly smaller. *)
Definition min (x y : Q) : Q := Qmin x y.

Definition sumQ (l : list Q) : Q := foldr Qplus 0%Q l.

(** [statistics.mean] on floats: the exact mean of the data, rounded
    once; [StatisticsError] on an empty sequence. *)
Definition statistics_mean (data : list Q) : res Q :=
  match data with
  | [] => Raise StatisticsError
  | _ => Ok (rnd (sumQ data / inject_Z (len data)))
  end.

(** [statistics.mean] on ints: an int when the mean is integral,
    otherwise the exact mean rounded to a float. *)
Definition statistics_mean_int (data : list Z) : res Q :=
  match data with
  | [] => Raise StatisticsError
  | _ =>
      let total := foldr Z.add 0 data in
      let n := len data in
      if total mod n =? 0 then Ok (inject_Z (total / n))
      else Ok (rnd (Qmake total (Z.to_pos n)))
  end.

End Py.

(** ** Data model *)

(** The [metadata] object of an input record.  Every key is optional:
    [None] is an absent key. *)
Record InputMetadata : Type := {
  userRole : option string;
  processingTimeMs : option Q;
  sourceCount : option Q;
  sessionId : option string;
  timestamp : option string;
}.

(** One object of the [results] array of the input file. *)
Record EvaluationRecord : Type := {
  query : option string;
  generated_response : option string;
  retrieved_documents : option (list string);
  metadata : option InputMetadata;
}.

(** The parsed input file: a JSON object whose [results] key is optional. *)
Record Document : Type := {
  doc_results : option (list EvaluationRecord);
}.

(** [d.get(key, default)] on an optional key. *)
Definition get {A : Type} (field : option A) (dflt : A) : A :=
  match field with
  | Some v => v
  | None => dflt
  end.

(** [evaluation["metrics"]]. *)
Record MetricSet : Type := {
  faithfulness : Q;
  answer_relevancy : Q;
  context_precision : Q;
  context_recall : Q;
}.

(** [evaluation["metadata"]]. *)
Record EvalMetadata : Type := {
  user_role : string;
  processing_time_ms : Q;
  source_count : Q;
  session_id : string;
  ev_timestamp : string;
}.

(** The dictionary built by [_evaluate_result_heuristic]. *)
Record Evaluation : Type := {
  ev_query : string;
  metrics : MetricSet;
  ev_metadata : EvalMetadata;
  overall_score : Q;
}.

(** The five score lists that [calculate_aggregate_metrics] accumulates,
    once in [all_scores] and once per role. *)
Record ScoreLists : Type := {
  faithfulness_l : list Q;
  answer_relevancy_l : list Q;
  context_precision_l : list Q;
  context_recall_l : list Q;
  overall_l : list Q;
}.

(** [metrics_by_role[role]]: a counter and the five lists. *)
Record RoleAcc : Type := {
  count : Z;
  scores : ScoreLists;
}.

(** The five rounded means of [aggregate["overall_metrics"]] and of each
    [aggregate["by_role"][role]]. *)
Record Means : Type := {
  mean_faithfulness : Q;
  mean_answer_relevancy : Q;
  mean_context_precision : Q;
  mean_context_recall : Q;
  mean_overall_score : Q;
}.

(** [aggregate["by_role"][role]]. *)
Record RoleReport : Type := {
  role_count : Z;
  role_means : Means;
}.

(** The dictionary built at the end of [calculate_aggregate_metrics]. *)
Record AggregateReport : Type := {
  total_evaluations : Z;
  agg_timestamp : string;
  overall_metrics : Means;
  by_role : gmap string RoleReport;
}.

(** A value of the dictionary returned by the external scorer. *)
Inductive ext_val : Type :=
  | ExtNum (q : Q)
  | ExtStr (s : string)
  | ExtNone.

(** What the variable [aggregate] of [main] can hold: the empty
    dictionary, the dictionary of [process_ragas_results], or the
    dictionary of [calculate_aggregate_metrics]. *)
Inductive report : Type :=
  | EmptyDict
  | Processed (processed_overall : gmap string Q)
              (raw_results : gmap string ext_val)
  | Aggregate (a : AggregateReport).

(** Key lookups on the report, [None] for a missing key. *)
Definition report_total_evaluations (r : report) : option Z :=
  match r with
  | Aggregate a => Some (total_evaluations a)
  | _ => None
  end.

Definition report_by_role (r : report) : option (gmap string RoleReport) :=
  match r with
  | Aggregate a => Some (by_role a)
  | Processed _ _ => Some ∅
  | EmptyDict => None
  end.

(** The [overall_metrics] entry as a mapping from metric name to value. *)
Definition means_dict (m : Means) : gmap string Q :=
  {[ "faithfulness"%string := mean_faithfulness m;
     "answer_relevancy"%string := mean_answer_relevancy m;
     "context_precision"%string := mean_context_precision m;
     "context_recall"%string := mean_context_recall m;
     "overall_score"%string := mean_overall_score m ]}.

Definition report_overall_metrics (r : report) : option (gmap string Q) :=
  match r with
  | Aggregate a => Some (means_dict (overall_metrics a))
  | Processed o _ => Some o
  | EmptyDict => None
  end.

(** The result of the external scorer's batched call. *)
Inductive ext_result : Type :=
  | ExtDict (d : gmap string ext_val)
  | ExtObject.

(** The columns handed to the external scorer by [prepare_dataset]. *)
Record Dataset : Type := {
  ds_query : list string;
  ds_generated_response : list string;
  ds_retrieved_documents : list (list string);
}.

(** What [evaluate_all] returns: the dictionary [{"evaluations": ...}] of
    the heuristic path, or the result of the external scorer. *)
Inductive eval_output : Type :=
  | HeuristicDict (evs : list Evaluation)
  | External (r : ext_result).

(** The world around the script: the files, the optional external
    scorer ([None] when the import failed, [RAGAS_AVAILABLE = False]) and
    the clock reading used for the report. *)
Record Env : Type := {
  fs : string → option Document;
  ragas : option (Dataset → res ext_result);
  now : string;
}.

(** The instance state of [RagasEvaluator]. *)
Record RagasEvaluator : Type := {
  results_file : string;
  results : list EvaluationRecord;
  evaluations : list Evaluation;
}.

(** ** The evaluator *)

Definition load_results (env : Env) (self : RagasEvaluator)
  : res RagasEvaluator :=
  match fs env (results_file self) with
  | Some data =>
      Ok {| results_file := results_file self;
            results := get (doc_results data) [];
            evaluations := evaluations self |}
  | None => Raise FileNotFoundError
  end.

(** [RagasEvaluator(results_file)]. *)
Definition init (env : Env) (file : string) : res RagasEvaluator :=
  load_results env
    {| results_file := file; results := []; evaluations := [] |}.

Definition prepare_dataset (env : Env) (self : RagasEvaluator)
  : option Dataset :=
  match ragas env with
  | None => None
  | Some _ =>
      Some {| ds_query := (λ r, get (query r) ""%string) <$> results self;
              ds_generated_response :=
                (λ r, get (generated_response r) ""%string) <$> results self;
              ds_retrieved_documents :=
                (λ r, get (retrieved_documents r) []) <$> results self |}
  end.

Definition _calculate_faithfulness_heuristic
    (response : string) (context : list string) : res Q :=
  if negb (Py.truthy_list context) || negb (Py.truthy_str response)
  then Ok 0%Q
  else
    let response_words : gset string :=
      list_to_set (Py.split (Py.lower response)) in
    let context_text := Py.lower (Py.join " " context) in
    let context_words : gset string := list_to_set (Py.split context_text) in
    let overlap := Z.of_nat (size (response_words ∩ context_words)) in
    let total := Z.of_nat (size response_words) in
    x ← (if 0 <? total
         then Py.truediv (inject_Z overlap) (inject_Z total)
         else Ok 0%Q);
    Ok (round3 (Py.min x 1)).

Definition _calculate_relevancy_heuristic
    (query response : string) : res Q :=
  if negb (Py.truthy_str query) || negb (Py.truthy_str response)
  then Ok 0%Q
  else
    let query_words : gset string :=
      list_to_set (Py.split (Py.lower query)) in
    let response_words : gset string :=
      list_to_set (Py.split (Py.lower response)) in
    let overlap := Z.of_nat (size (query_words ∩ response_words)) in
    let total := Z.of_nat (size query_words) in
    x ← (if 0 <? total
         then Py.truediv (inject_Z overlap) (inject_Z total)
         else Ok 0%Q);
    Ok (round3 (Py.min x 1)).

Definition _calculate_precision_heuristic (context : list string) : res Q :=
  if negb (Py.truthy_list context) then Ok 0%Q
  else
    avg_length ← (if Py.truthy_list context
                  then Py.statistics_mean_int (Py.len_str <$> context)
                  else Ok 0%Q);
    x ← Py.truediv avg_length 500;
    Ok (round3 (Py.min x 1)).

Definition _calculate_recall_heuristic (context : list string) : res Q :=
  if negb (Py.truthy_list context) then Ok 0%Q
  else
    x ← Py.truediv (inject_Z (Py.len context)) 10;
    Ok (round3 (Py.min x 1)).

(** The metadata object used when the record has none: [{}]. *)
Definition empty_metadata : InputMetadata :=
  {| userRole := None; processingTimeMs := None; sourceCount := None;
     sessionId := None; timestamp := None |}.

Definition _evaluate_result_heuristic (result : EvaluationRecord)
  : res Evaluation :=
  let query := get (query result) ""%string in
  let response := get (generated_response result) ""%string in
  let context := get (retrieved_documents result) [] in
  let metadata := get (metadata result) empty_metadata in
  faithfulness_score ← _calculate_faithfulness_heuristic response context;
  relevancy_score ← _calculate_relevancy_heuristic query response;
  precision_score ← _calculate_precision_heuristic context;
  recall_score ← _calculate_recall_heuristic context;
  let scores :=
    [faithfulness_score; relevancy_score; precision_score; recall_score] in
  mean ← Py.statistics_mean scores;
  Ok {| ev_query := query;
        metrics := {| faithfulness := faithfulness_score;
                      answer_relevancy := relevancy_score;
                      context_precision := precision_score;
                      context_recall := recall_score |};
        ev_metadata :=
          {| user_role := get (userRole metadata) "unknown"%string;
             processing_time_ms := get (processingTimeMs metadata) 0%Q;
             source_count := get (sourceCount metadata) 0%Q;
             session_id := get (sessionId metadata) ""%string;
             ev_timestamp := get (timestamp metadata) ""%string |};
        overall_score := round3 mean |}.

(** The loop of [_fallback_evaluation]: [self.evaluations] is emptied, then
    each evaluation is appended. *)
Definition _fallback_evaluation (self : RagasEvaluator)
  : res (RagasEvaluator * eval_output) :=
  evs ← for_each
           (λ evs result,
              evaluation ← _evaluate_result_heuristic result;
              Ok (evs ++ [evaluation]))
           [] (results self);
  Ok ({| results_file := results_file self;
         results := results self;
         evaluations := evs |},
      HeuristicDict evs).

Definition evaluate_all (env : Env) (self : RagasEvaluator)
  : res (RagasEvaluator * eval_output) :=
  match ragas env with
  | None => _fallback_evaluation self
  | Some evaluate =>
      match prepare_dataset env self with
      | None => _fallback_evaluation self
      | Some dataset =>
          match evaluate dataset with
          | Ok ragas_results => Ok (self, External ragas_results)
          | Raise _ => _fallback_evaluation self
          end
      end
  end.

Definition process_ragas_results (ragas_results : gmap string ext_val)
  : report :=
  if decide (ragas_results = ∅) then EmptyDict
  else
    Processed
      (omap (λ metric_value,
               match metric_value with
               | ExtNum q => Some (round3 (rnd q))
               | _ => None
               end) ragas_results)
      ragas_results.

Definition empty_scores : ScoreLists :=
  {| faithfulness_l := []; answer_relevancy_l := [];
     context_precision_l := []; context_recall_l := []; overall_l := [] |}.

(** The five [append] calls on one group of lists. *)
Definition append_scores (s : ScoreLists) (e : Evaluation) : ScoreLists :=
  {| faithfulness_l := faithfulness_l s ++ [faithfulness (metrics e)];
     answer_relevancy_l :=
       answer_relevancy_l s ++ [answer_relevancy (metrics e)];
     context_precision_l :=
       context_precision_l s ++ [context_precision (metrics e)];
     context_recall_l := context_recall_l s ++ [context_recall (metrics e)];
     overall_l := overall_l s ++ [overall_score e] |}.

(** The body of the accumulation loop. *)
Definition accumulate
    (st : gmap string RoleAcc * ScoreLists) (eval_result : Evaluation)
  : res (gmap string RoleAcc * ScoreLists) :=
  let '(metrics_by_role, all_scores) := st in
  let role := user_role (ev_metadata eval_result) in
  let metrics_by_role :=
    match metrics_by_role !! role with
    | None => <[role := {| count := 0; scores := empty_scores |}]>
                metrics_by_role
    | Some _ => metrics_by_role
    end in
  match metrics_by_role !! role with
  | None => Raise (KeyError role)
  | Some acc =>
      Ok (<[role := {| count := count acc + 1;
                       scores := append_scores (scores acc) eval_result |}]>
            metrics_by_role,
          append_scores all_scores eval_result)
  end.

(** The five [round(statistics.mean(...), 3)] of one group of lists. *)
Definition mean_scores (s : ScoreLists) : res Means :=
  f ← Py.statistics_mean (faithfulness_l s);
  r ← Py.statistics_mean (answer_relevancy_l s);
  p ← Py.statistics_mean (context_precision_l s);
  c ← Py.statistics_mean (context_recall_l s);
  o ← Py.statistics_mean (overall_l s);
  Ok {| mean_faithfulness := round3 f;
        mean_answer_relevancy := round3 r;
        mean_context_precision := round3 p;
        mean_context_recall := round3 c;
        mean_overall_score := round3 o |}.

(** The body of the loop over [metrics_by_role.items()]. *)
Definition summarize_role
    (role : string) (metrics : RoleAcc) (acc : res (gmap string RoleReport))
  : res (gmap string RoleReport) :=
  by_role ← acc;
  means ← mean_scores (scores metrics);
  Ok (<[role := {| role_count := count metrics; role_means := means |}]>
        by_role).

Definition calculate_aggregate_metrics (env : Env) (self : RagasEvaluator)
  : res report :=
  if negb (Py.truthy_list (evaluations self)) then Ok EmptyDict
  else
    '(metrics_by_role, all_scores) ←
      for_each accumulate (∅, empty_scores) (evaluations self);
    overall ← mean_scores all_scores;
    by_role ← map_fold summarize_role (Ok ∅) metrics_by_role;
    Ok (Aggregate
          {| total_evaluations := Py.len (evaluations self);
             agg_timestamp := now env;
             overall_metrics := overall;
             by_role := by_role |}).

(** [print_summary] reads [aggregate['total_evaluations']] first and then
    the other keys of the dictionary of [calculate_aggregate_metrics]. *)
Definition print_summary (aggregate : report) : res unit :=
  match aggregate with
  | Aggregate _ => Ok ()
  | _ => Raise (KeyError "total_evaluations")
  end.

(** [calculate_aggregate_metrics] when [self.evaluations] was set to the
    value stored under the key ["evaluations"] of the external result:
    a falsy value gives the empty dictionary, any other cannot be
    traversed as a list of evaluations. *)
Definition aggregate_foreign (v : ext_val) : res report :=
  match v with
  | ExtNone => Ok EmptyDict
  | ExtNum q => if Qeq_bool q 0 then Ok EmptyDict else Raise TypeError
  | ExtStr s => if Py.truthy_str s then Raise TypeError else Ok EmptyDict
  end.

(** The pipeline of [main], up to the aggregate it returns ([None] for
    the early exit); the export files are not modelled. *)
Definition main (env : Env) : res (RagasEvaluator * option report) :=
  evaluator ← init env "rag-test-results.json";
  '(evaluator, ragas_results) ← evaluate_all env evaluator;
  match ragas_results with
  | HeuristicDict evs =>
      let evaluator :=
        {| results_file := results_file evaluator;
           results := results evaluator;
           evaluations := evs |} in
      aggregate ← calculate_aggregate_metrics env evaluator;
      _ ← print_summary aggregate;
      Ok (evaluator, Some aggregate)
  | External (ExtDict d) =>
      if decide (d = ∅) then Ok (evaluator, None)
      else
        match d !! "evaluations"%string with
        | Some v =>
            aggregate ← aggregate_foreign v;
            _ ← print_summary aggregate;
            Ok (evaluator, Some aggregate)
        | None =>
            let aggregate := process_ragas_results d in
            '(evaluator, _) ← _fallback_evaluation evaluator;
            aggregate ← calculate_aggregate_metrics env evaluator;
            _ ← print_summary aggregate;
            Ok (evaluator, Some aggregate)
        end
  | External ExtObject => Ok (evaluator, None)
  end.

(** ** The exports *)

(** The metadata object of the JSON export. *)
Record ExportMetadata : Type := {
  framework : string;
  evaluation_date : string;
  source_file : string;
  total_results_evaluated : Z;
}.

(** The dictionary [output] that [export_results] hands to [json.dump]. *)
Record ExportDocument : Type := {
  export_evaluations : list Evaluation;
  aggregate_metrics : report;
  export_metadata : ExportMetadata;
}.

(** [export_results], up to the dictionary it serializes. *)
Definition export_results (env : Env) (self : RagasEvaluator)
  : res ExportDocument :=
  aggregate ← calculate_aggregate_metrics env self;
  Ok {| export_evaluations := evaluations self;
        aggregate_metrics := aggregate;
        export_metadata :=
          {| framework := "Ragas";
             evaluation_date := now env;
             source_file := results_file self;
             total_results_evaluated := Py.len (evaluations self) |} |}.

(** A field handed to [csv.writer]: a text or a number. *)
Inductive cell : Type :=
  | Text (s : string)
  | Number (q : Q).

Definition csv_header : list cell :=
  [Text "Query"; Text "User Role"; Text "Faithfulness";
   Text "Answer Relevancy"; Text "Context Precision";
   Text "Context Recall"; Text "Overall Score";
   Text "Processing Time (ms)"; Text "Source Count"; Text "Timestamp"].

Definition csv_row (eval_result : Evaluation) : list cell :=
  [Text (ev_query eval_result);
   Text (user_role (ev_metadata eval_result));
   Number (faithfulness (metrics eval_result));
   Number (answer_relevancy (metrics eval_result));
   Number (context_precision (metrics eval_result));
   Number (context_recall (metrics eval_result));
   Number (overall_score eval_result);
   Number (processing_time_ms (ev_metadata eval_result));
   Number (source_count (ev_metadata eval_result));
   Text (ev_timestamp (ev_metadata eval_result))].

(** [export_csv], up to the rows it hands to [writer.writerow], in
    order: the header, then one row per evaluation. *)
Definition export_csv (self : RagasEvaluator) : list (list cell) :=
  csv_header :: (csv_row <$> evaluations self).

(** ** The scores in the words of the specification *)

(** The scores of the pipeline live in the closed range from 0 to 1. *)
Definition unit_interval (x : Q) : Prop := (0 <= x)%Q ∧ (x <= 1)%Q.

(** The distinct whitespace-delimited lowercased tokens of a text. *)
Definition distinct_tokens (text : string) : list string :=
  remove_dups (Py.split (Py.lower text)).

(** The whitespace-delimited tokens of the lowercased documents, one
    document after the other. *)
Definition documents_tokens (docs : list string) : list string :=
  mjoin ((λ doc, Py.split (Py.lower doc)) <$> docs).

(** The fraction of [tokens] that occur among [pool], as a float; with no
    token at all there is no fraction and the score counts as 0. *)
Definition fraction_among (tokens pool : list string) : Q :=
  match tokens with
  | [] => 0%Q
  | _ =>
      rnd (inject_Z (Py.len (filter (λ t, t ∈ pool) tokens))
           / inject_Z (Py.len tokens))
  end.

Definition spec_faithfulness (response : string) (docs : list string) : Q :=
  match response, docs with
  | EmptyString, _ | _, [] => 0%Q
  | _, _ =>
      round3 (Qmin (fraction_among (distinct_tokens response)
                      (documents_tokens docs)) 1)
  end.

Definition spec_answer_relevancy (query response : string) : Q :=
  match query, response with
  | EmptyString, _ | _, EmptyString => 0%Q
  | _, _ =>
      round3 (Qmin (fraction_among (distinct_tokens query)
                      (Py.split (Py.lower response))) 1)
  end.

(** The arithmetic mean of a sequence of floats, as a float. *)
Definition arithmetic_mean (l : list Q) : Q :=
  rnd (Py.sumQ l / inject_Z (Py.len l)).

(** A text that is not empty and holds nothing but whitespace. *)
Definition whitespace_only (s : string) : Prop :=
  s ≠ EmptyString ∧ forallb Py.isspace (list_ascii_of_string s) = true.

(** The evaluations of one role, in their order. *)
Definition of_role (role : string) (evs : list Evaluation) : list Evaluation :=
  filter (λ e, user_role (ev_metadata e) = role) evs.

(** The rounded means of a sequence of evaluations. *)
Definition means_of (evs : list Evaluation) : Means :=
  {| mean_faithfulness :=
       round3 (arithmetic_mean ((λ e, faithfulness (metrics e)) <$> evs));
     mean_answer_relevancy :=
       round3 (arithmetic_mean ((λ e, answer_relevancy (metrics e)) <$> evs));
     mean_context_precision :=
       round3 (arithmetic_mean ((λ e, context_precision (metrics e)) <$> evs));
     mean_context_recall :=
       round3 (arithmetic_mean ((λ e, context_recall (metrics e)) <$> evs));
     mean_overall_score :=
       round3 (arithmetic_mean (overall_score <$> evs)) |}.

(** The five score lists of a sequence of evaluations. *)
Definition scores_of (evs : list Evaluation) : ScoreLists :=
  {| faithfulness_l := (λ e, faithfulness (metrics e)) <$> evs;
     answer_relevancy_l := (λ e, answer_relevancy (metrics e)) <$> evs;
     context_precision_l := (λ e, context_precision (metrics e)) <$> evs;
     context_recall_l := (λ e, context_recall (metrics e)) <$> evs;
     overall_l := overall_score <$> evs |}.

(** The accumulator of a role once [evs] has been traversed. *)
Definition acc_of (role : string) (evs : list Evaluation) : RoleAcc :=
  {| count := Py.len (of_role role evs);
     scores := scores_of (of_role role evs) |}.

(** The entry of [by_role] for a role. *)
Definition role_report_of (role : string) (evs : list Evaluation)
  : RoleReport :=
  {| role_count := Py.len (of_role role evs);
     role_means := means_of (of_role role evs) |}.

(** The sum of the [count] fields over the accumulators. *)
Definition sum_acc_counts (m : gmap string RoleAcc) : Z :=
  map_fold (λ _ a total, count a + total) 0 m.

(** The roles of a sequence of evaluations. *)
Definition roles_of (evs : list Evaluation) : list string :=
  (λ e, user_role (ev_metadata e)) <$> evs.

(** The sum of the [count] fields over the entries of [by_role]. *)
Definition sum_counts (m : gmap string RoleReport) : Z :=
  map_fold (λ _ r total, role_count r + total) 0 m.

(** The same script run where the external scorer is not installed. *)
Definition without_ragas (env : Env) : Env :=
  {| fs := fs env; ragas := None; now := now env |}.

(** A record with every absent key replaced by its default. *)
Definition with_defaults (r : EvaluationRecord) : EvaluationRecord :=
  let m := get (metadata r) empty_metadata in
  {| query := Some (get (query r) ""%string);
     generated_response := Some (get (generated_response r) ""%string);
     retrieved_documents := Some (get (retrieved_documents r) []);
     metadata :=
       Some {| userRole := Some (get (userRole m) "unknown"%string);
               processingTimeMs := Some (get (processingTimeMs m) 0%Q);
               sourceCount := Some (get (sourceCount m) 0%Q);
               sessionId := Some (get (sessionId m) ""%string);
               timestamp := Some (get (timestamp m) ""%string) |} |}.

(** An optional key of the optional [metadata] object of a record. *)
Definition metadata_field {A : Type} (field : InputMetadata → option A)
    (r : EvaluationRecord) : option A :=
  match metadata r with
  | Some m => field m
  | None => None
  end.

(** A score with three decimal digits: the float of [k / 1000]. *)
Definition thousandth (x : Q) : Prop :=
  ∃ k : Z, (0 <= k <= 1000)%Z ∧ x = rnd (Qmake k 1000).

(** Equality of two fractions, numerator and denominator. *)
Definition Q_same (x y : Q) : bool :=
  (Qnum x =? Qnum y)%Z && (Qden x =? Qden y)%positive.

(** The five scores of an evaluation, and the five means of a report
    entry. *)
Definition evaluation_scores (e : Evaluation) : list Q :=
  [faithfulness (metrics e); answer_relevancy (metrics e);
   context_precision (metrics e); context_recall (metrics e);
   overall_score e].

Definition means_list (m : Means) : list Q :=
  [mean_faithfulness m; mean_answer_relevancy m; mean_context_precision m;
   mean_context_recall m; mean_overall_score m].

(** The scores of one evaluation, as the means of a group would hold
    them. *)
Definition scores_as_means (e : Evaluation) : Means :=
  {| mean_faithfulness := faithfulness (metrics e);
     mean_answer_relevancy := answer_relevancy (metrics e);
     mean_context_precision := context_precision (metrics e);
     mean_context_recall := context_recall (metrics e);
     mean_overall_score := overall_score e |}.

(** The records that [main] loads: those of the file
    [rag-test-results.json], none when it has no [results] key; [None]
    when the file does not exist. *)
Definition input_records (env : Env) : option (list EvaluationRecord) :=
  (λ data, get (doc_results data) [])
    <$> fs env "rag-test-results.json"%string.


(** ** Sample inputs *)

(** A record with an answer drawn from its only document. *)
Definition sample_record : EvaluationRecord :=
  {| query := Some "What is X?"%string;
     generated_response := Some "X is a thing"%string;
     retrieved_documents := Some ["X is a thing used for Y"%string];
     metadata :=
       Some {| userRole := Some "admin"%string;
               processingTimeMs := Some 120%Q;
               sourceCount := Some 1%Q;
               sessionId := Some "s1"%string;
               timestamp := Some "2024-01-01T00:00:00"%string |} |}.

(** A record with no key at all. *)
Definition bare_record : EvaluationRecord :=
  {| query := None; generated_response := None;
     retrieved_documents := None; metadata := None |}.

(** A record whose query and answer hold only whitespace. *)
Definition blank_record : EvaluationRecord :=
  {| query := Some "  "%string;
     generated_response := Some " "%string;
     retrieved_documents := Some ["some context"%string];
     metadata := None |}.

Definition sample_files (records : option (list EvaluationRecord))
  : string → option Document :=
  λ name, if decide (name = "rag-test-results.json"%string)
          then Some {| doc_results := records |} else None.

(** The external scorer answers with one aggregate score. *)
Definition sample_scores : gmap string ext_val :=
  {[ "faithfulness"%string := ExtNum 0.5 ]}.

Definition env_scored : Env :=
  {| fs := sample_files (Some [sample_record]);
     ragas := Some (λ _, Ok (ExtDict sample_scores));
     now := "2024-01-02T00:00:00"%string |}.

(** The external scorer is installed and its call raises. *)
Definition env_raising : Env :=
  {| fs := sample_files (Some [sample_record; bare_record; blank_record]);
     ragas := Some (λ _, Raise TypeError);
     now := "2024-01-02T00:00:00"%string |}.

(** The input file has no record. *)
Definition env_empty : Env :=
  {| fs := sample_files (Some []);
     ragas := None;
     now := "2024-01-02T00:00:00"%string |}.

(** The input file has no [results] key. *)
Definition env_no_results : Env :=
  {| fs := sample_files None;
     ragas := None;
     now := "2024-01-02T00:00:00"%string |}.

Definition fresh_evaluator : RagasEvaluator :=
  {| results_file := "rag-test-results.json"%string;
     results := []; evaluations := [] |}.

(** An evaluator that has loaded one record without any key. *)
Definition bare_evaluator : RagasEvaluator :=
  {| results_file := "rag-test-results.json"%string;
     results := [bare_record]; evaluations := [] |}.

(** An evaluator holding the heuristic evaluations of three records. *)
Definition scored_evaluator : RagasEvaluator :=
  Eval vm_compute in
    match (self ← init env_raising "rag-test-results.json";
           _fallback_evaluation self) with
    | Ok (self, _) => self
    | Raise _ => fresh_evaluator
    end.

(** The heuristic evaluation of [sample_record]. *)
Definition sample_evaluation : Evaluation :=
  Eval vm_compute in
    match evaluations scored_evaluator with
    | e :: _ => e
    | [] => {| ev_query := ""; metrics := {| faithfulness := 0;
               answer_relevancy := 0; context_precision := 0;
               context_recall := 0 |};
               ev_metadata := {| user_role := ""; processing_time_ms := 0;
                                 source_count := 0; session_id := "";
                                 ev_timestamp := "" |};
               overall_score := 0 |}
    end.

(** The evaluations of [scored_evaluator] without role. *)
Definition unknown_evaluations : list Evaluation :=
  Eval vm_compute in of_role "unknown" (evaluations scored_evaluator).

(** * Properties *)

(** One step of the error monad. *)
Ltac run := cbn [mbind res_mbind res_bind].

(** Facts that keep a score between 0 and 1. *)
Create HintDb unit.

(** ** Rounding keeps the unit interval *)

Section Rounding.

Local Open Scope Z_scope.

Lemma rhe_div_nonneg (n d : Z) : 0 <= n → 0 < d → 0 <= rhe_div n d.
Proof.
  intros Hn Hd. unfold rhe_div.
  assert (0 <= n / d) by (apply Z.div_pos; lia).
  destruct (2 * (n mod d) ?= d); [destruct (Z.even (n / d))| |]; lia.
Qed.

Lemma rhe_div_le (n d k : Z) : 0 < d → n <= k * d → rhe_div n d <= k.
Proof.
  intros Hd Hn. unfold rhe_div.
  pose proof (Z.div_mod n d ltac:(lia)) as Hdm.
  pose proof (Z.mod_pos_bound n d Hd) as Hr.
  assert (n / d <= k) by (apply Z.div_le_upper_bound; lia).
  destruct (Z.compare_spec (2 * (n mod d)) d);
    [destruct (Z.even (n / d))| |]; nia.
Qed.

Lemma rhe_div_ge (n d k : Z) : 0 < d → k * d <= n → k <= rhe_div n d.
Proof.
  intros Hd Hn. unfold rhe_div.
  assert (k <= n / d) by (apply Z.div_le_lower_bound; lia).
  destruct (2 * (n mod d) ?= d); [destruct (Z.even (n / d))| |]; lia.
Qed.

(** [rhe_div] picks a nearest integer. *)
Lemma rhe_div_nearest (n d : Z) :
  0 < d → Z.abs (2 * (rhe_div n d * d - n)) <= d.
Proof.
  intros Hd. unfold rhe_div.
  pose proof (Z.div_mod n d ltac:(lia)) as Hdm.
  pose proof (Z.mod_pos_bound n d Hd) as Hr.
  destruct (Z.compare_spec (2 * (n mod d)) d);
    [destruct (Z.even (n / d))| |]; nia.
Qed.

(** [ilog2 n d] brackets [n / d] between two powers of two. *)
Lemma ilog2_spec (n d : Z) :
  0 < n → 0 < d →
  if 0 <=? ilog2 n d
  then d * 2 ^ ilog2 n d <= n < 2 * (d * 2 ^ ilog2 n d)
  else d <= n * 2 ^ (- ilog2 n d) < 2 * d.
Proof.
  intros Hn Hd. unfold ilog2.
  destruct (Z.log2_spec n Hn) as [Hn1 Hn2].
  destruct (Z.log2_spec d Hd) as [Hd1 Hd2].
  pose proof (Z.log2_nonneg n). pose proof (Z.log2_nonneg d).
  rewrite Z.pow_succ_r in Hn2, Hd2 by done.
  set (a := Z.log2 n) in *. set (b := Z.log2 d) in *.
  assert (0 < 2 ^ a) by (apply Z.pow_pos_nonneg; lia).
  assert (0 < 2 ^ b) by (apply Z.pow_pos_nonneg; lia).
  destruct (0 <=? a - b) eqn:Hg.
  - apply Z.leb_le in Hg.
    assert (2 ^ a = 2 ^ b * 2 ^ (a - b)) as Hab
      by (rewrite <- Z.pow_add_r by lia; f_equal; lia).
    assert (0 < 2 ^ (a - b)) by (apply Z.pow_pos_nonneg; lia).
    destruct (d * 2 ^ (a - b) <=? n) eqn:Hc.
    + apply Z.leb_le in Hc. rewrite (proj2 (Z.leb_le _ _) Hg). nia.
    + apply Z.leb_gt in Hc. destruct (0 <=? a - b - 1) eqn:Hk.
      * apply Z.leb_le in Hk.
        assert (2 ^ (a - b) = 2 * 2 ^ (a - b - 1)) as Hp
          by (rewrite <- Z.pow_succ_r by lia; f_equal; lia).
        assert (0 < 2 ^ (a - b - 1)) by (apply Z.pow_pos_nonneg; lia).
        nia.
      * apply Z.leb_gt in Hk. assert (a - b = 0) as E by lia.
        rewrite E in *. change (2 ^ (- (0 - 1))) with 2.
        change (2 ^ 0) with 1 in *. lia.
  - apply Z.leb_gt in Hg.
    assert (2 ^ b = 2 ^ a * 2 ^ (- (a - b))) as Hab
      by (rewrite <- Z.pow_add_r by lia; f_equal; lia).
    assert (0 < 2 ^ (- (a - b))) by (apply Z.pow_pos_nonneg; lia).
    destruct (d <=? n * 2 ^ (- (a - b))) eqn:Hc.
    + apply Z.leb_le in Hc. rewrite (proj2 (Z.leb_gt _ _) Hg). nia.
    + apply Z.leb_gt in Hc.
      rewrite (proj2 (Z.leb_gt 0 (a - b - 1))) by lia.
      assert (2 ^ (- (a - b - 1)) = 2 * 2 ^ (- (a - b))) as Hp
        by (rewrite <- Z.pow_succ_r by lia; f_equal; lia).
      nia.
Qed.

(** The value [m * 2 ^ e] lies on the binary64 grid and is nearest to
    [n / d] on it. *)
Lemma exponent_ge (n d : Z) : -1074 <= exponent n d.
Proof. unfold exponent. lia. Qed.

Lemma significand_nearest (n d : Z) :
  0 < n → 0 < d →
  if 0 <=? exponent n d
  then Z.abs (2 * (significand n d * (d * 2 ^ exponent n d) - n))
       <= d * 2 ^ exponent n d
  else Z.abs (2 * (significand n d * d - n * 2 ^ (- exponent n d))) <= d.
Proof.
  intros Hn Hd. unfold significand.
  destruct (0 <=? exponent n d) eqn:He.
  - apply Z.leb_le in He. apply rhe_div_nearest.
    assert (0 < 2 ^ exponent n d) by (apply Z.pow_pos_nonneg; lia). nia.
  - by apply rhe_div_nearest.
Qed.

Lemma significand_bound (n d : Z) :
  0 < n → 0 < d → 0 <= significand n d <= 2 ^ 53.
Proof.
  intros Hn Hd. pose proof (ilog2_spec n d Hn Hd) as Hl.
  unfold significand, exponent.
  set (k := ilog2 n d) in *.
  destruct (0 <=? Z.max (k - 52) (-1074)) eqn:He.
  - apply Z.leb_le in He. rewrite Z.max_l in * by lia.
    rewrite (proj2 (Z.leb_le 0 k)) in Hl by lia.
    assert (2 ^ k = 2 ^ (k - 52) * 2 ^ 52) as Hk
      by (rewrite <- Z.pow_add_r by lia; f_equal; lia).
    assert (0 < 2 ^ (k - 52)) by (apply Z.pow_pos_nonneg; lia).
    split.
    + apply (rhe_div_ge _ _ 0); nia.
    + apply rhe_div_le; [nia|]. rewrite Hk in Hl.
      change (2 ^ 53) with (2 * 2 ^ 52). nia.
  - apply Z.leb_gt in He.
    set (e := Z.max (k - 52) (-1074)) in *.
    assert (0 < 2 ^ (- e)) by (apply Z.pow_pos_nonneg; lia).
    split; [apply (rhe_div_ge _ _ 0); nia|].
    apply rhe_div_le; [done|].
    destruct (0 <=? k) eqn:Hk.
    + apply Z.leb_le in Hk.
      assert (2 ^ 53 = 2 * 2 ^ k * 2 ^ (52 - k)) as Hp.
      { rewrite <- Z.pow_succ_r, <- Z.pow_add_r by lia. f_equal. lia. }
      assert (2 ^ (- e) <= 2 ^ (52 - k))
        by (apply Z.pow_le_mono_r; subst e; lia).
      assert (0 < 2 ^ k) by (apply Z.pow_pos_nonneg; lia).
      assert (0 < 2 ^ (52 - k)) by (apply Z.pow_pos_nonneg; lia).
      rewrite Hp. nia.
    + apply Z.leb_gt in Hk.
      assert (2 ^ (52 - k) = 2 ^ 52 * 2 ^ (- k)) as Hp
        by (rewrite <- Z.pow_add_r by lia; f_equal; lia).
      assert (2 ^ (- e) <= 2 ^ (52 - k))
        by (apply Z.pow_le_mono_r; subst e; lia).
      assert (0 < 2 ^ (- k)) by (apply Z.pow_pos_nonneg; lia).
      change (2 ^ 53) with (2 * 2 ^ 52). nia.
Qed.

Lemma significand_normal (n d : Z) :
  0 < n → 0 < d → -1074 <= ilog2 n d - 52 → 2 ^ 52 <= significand n d.
Proof.
  intros Hn Hd Hnorm. pose proof (ilog2_spec n d Hn Hd) as Hl.
  unfold significand, exponent. rewrite Z.max_l by done.
  set (k := ilog2 n d) in *.
  destruct (0 <=? k - 52) eqn:He.
  - apply Z.leb_le in He. rewrite (proj2 (Z.leb_le 0 k)) in Hl by lia.
    assert (2 ^ k = 2 ^ (k - 52) * 2 ^ 52) as Hk
      by (rewrite <- Z.pow_add_r by lia; f_equal; lia).
    assert (0 < 2 ^ (k - 52)) by (apply Z.pow_pos_nonneg; lia).
    apply rhe_div_ge; nia.
  - apply Z.leb_gt in He. apply rhe_div_ge; [done|].
    destruct (0 <=? k) eqn:Hk.
    + apply Z.leb_le in Hk.
      assert (2 ^ 52 = 2 ^ k * 2 ^ (- (k - 52))) as Hp
        by (rewrite <- Z.pow_add_r by lia; f_equal; lia).
      assert (0 < 2 ^ (- (k - 52))) by (apply Z.pow_pos_nonneg; lia).
      nia.
    + apply Z.leb_gt in Hk.
      assert (2 ^ (- (k - 52)) = 2 ^ 52 * 2 ^ (- k)) as Hp
        by (rewrite <- Z.pow_add_r by lia; f_equal; lia).
      nia.
Qed.

Lemma ilog2_le_0 (n d : Z) : 0 < n → n <= d → ilog2 n d <= 0.
Proof.
  intros Hn Hd. unfold ilog2.
  pose proof (Z.log2_le_mono n d Hd).
  destruct (0 <=? Z.log2 n - Z.log2 d) eqn:Hg.
  - apply Z.leb_le in Hg. destruct (_ <=? n); lia.
  - apply Z.leb_gt in Hg. destruct (d <=? _); lia.
Qed.

Lemma rnd_pos_nonneg (n d : Z) : 0 < n → 0 < d → (0 <= rnd_pos n d)%Q.
Proof.
  intros Hn Hd. unfold rnd_pos.
  destruct (significand_bound n d Hn Hd) as [Hm _].
  destruct (0 <=? exponent n d) eqn:He.
  - apply Z.leb_le in He.
    assert (0 < 2 ^ exponent n d) by (apply Z.pow_pos_nonneg; lia).
    unfold Qle, inject_Z. simpl. nia.
  - unfold Qle. simpl. lia.
Qed.

Lemma rnd_pos_le_1 (n d : Z) : 0 < n → n <= d → (rnd_pos n d <= 1)%Q.
Proof.
  intros Hn Hd. unfold rnd_pos, significand.
  pose proof (ilog2_le_0 n d Hn Hd) as Hl.
  assert (exponent n d < 0) as He by (unfold exponent; lia).
  rewrite (proj2 (Z.leb_gt 0 (exponent n d))) by done.
  assert (0 < 2 ^ (- exponent n d)) as Hp by (apply Z.pow_pos_nonneg; lia).
  assert (rhe_div (n * 2 ^ (- exponent n d)) d <= 2 ^ (- exponent n d))
    by (apply rhe_div_le; nia).
  unfold Qle. simpl. rewrite Z2Pos.id by done. lia.
Qed.

Lemma rnd_0 : rnd 0 = 0%Q.
Proof. reflexivity. Qed.

Lemma rnd_nonneg (x : Q) : (0 <= x)%Q → (0 <= rnd x)%Q.
Proof.
  intros Hx. unfold rnd. destruct x as [n d]. simpl.
  destruct n as [|n|n].
  - apply Qle_refl.
  - rewrite Qred_correct. by apply rnd_pos_nonneg.
  - unfold Qle in Hx. simpl in Hx. lia.
Qed.

Lemma rnd_le_1 (x : Q) : (0 <= x)%Q → (x <= 1)%Q → (rnd x <= 1)%Q.
Proof.
  intros Hx Hx1. unfold rnd. destruct x as [n d]. simpl.
  destruct n as [|n|n].
  - done.
  - rewrite Qred_correct. apply rnd_pos_le_1; [done|].
    unfold Qle in Hx1. simpl in Hx1. lia.
  - unfold Qle in Hx. simpl in Hx. lia.
Qed.

Lemma rnd_unit (x : Q) : unit_interval x → unit_interval (rnd x).
Proof. intros [??]. split; [by apply rnd_nonneg | by apply rnd_le_1]. Qed.

Lemma round3_unit (x : Q) : unit_interval x → unit_interval (round3 x).
Proof.
  intros [H0 H1]. apply rnd_unit.
  assert (0 <= x * 1000)%Q as Hn by (apply Qmult_le_0_compat; done).
  assert (x * 1000 <= 1 * 1000)%Q as Hm
    by (by apply Qmult_le_compat_r).
  destruct (x * 1000)%Q as [n d]. unfold rhe. simpl.
  unfold Qle in Hn, Hm. simpl in Hn, Hm.
  assert (0 <= rhe_div n (Z.pos d)) by (apply rhe_div_nonneg; lia).
  assert (rhe_div n (Z.pos d) <= 1000) by (apply rhe_div_le; lia).
  split; unfold Qle; simpl; lia.
Qed.

Lemma round3_0 : round3 0 = 0%Q.
Proof. reflexivity. Qed.

Lemma unit_0 : unit_interval 0.
Proof. split; done. Qed.

Lemma min_1_unit (x : Q) : (0 <= x)%Q → unit_interval (Py.min x 1).
Proof.
  intros Hx. unfold Py.min. split.
  - apply Q.min_glb; done.
  - apply Q.le_min_r.
Qed.

End Rounding.

#[export] Hint Resolve unit_0 rnd_unit round3_unit min_1_unit rnd_nonneg
  : unit.

(** ** Strings and token sets *)

Section Tokens.

Lemma lower_app (a b : string) :
  Py.lower (a ++ b) = (Py.lower a ++ Py.lower b)%string.
Proof. induction a as [|c a IH]; simpl; [done | by rewrite IH]. Qed.

Lemma lower_join (l : list string) :
  Py.lower (Py.join " " l) = Py.join " " (Py.lower <$> l).
Proof.
  induction l as [|x l IH]; [done|].
  destruct l as [|y l]; [done|].
  change (Py.join " " (x :: y :: l))
    with (x ++ " " ++ Py.join " " (y :: l))%string.
  rewrite !lower_app, IH. done.
Qed.

Lemma flush_app (cur : list ascii) (rest : list string) :
  Py.flush cur rest = Py.flush cur [] ++ rest.
Proof. by destruct cur. Qed.

Lemma split_from_space (cur : list ascii) (a b : string) :
  Py.split_from cur (a ++ " " ++ b)
  = Py.split_from cur a ++ Py.split b.
Proof.
  revert cur. induction a as [|c a IH]; intros cur; simpl.
  - apply flush_app.
  - destruct (Py.isspace c).
    + rewrite IH, (flush_app cur (_ ++ _)), (flush_app cur (Py.split_from _ _)).
      by rewrite (assoc_L (++)).
    + apply IH.
Qed.

(** The tokens of the space-joined documents are the tokens of the
    documents, one document after the other. *)
Lemma split_join (l : list string) :
  Py.split (Py.join " " l) = mjoin (Py.split <$> l).
Proof.
  induction l as [|x l IH]; [done|].
  destruct l as [|y l].
  - simpl. by rewrite (right_id_L [] (++)).
  - change (Py.join " " (x :: y :: l))
      with (x ++ " " ++ Py.join " " (y :: l))%string.
    unfold Py.split at 1. rewrite split_from_space, IH. done.
Qed.

Lemma context_words_tokens (context : list string) :
  Py.split (Py.lower (Py.join " " context)) = documents_tokens context.
Proof.
  unfold documents_tokens.
  rewrite lower_join, split_join, <- list_fmap_compose. done.
Qed.

Lemma size_token_set (l : list string) :
  size (list_to_set l : gset string) = length (remove_dups l).
Proof.
  rewrite <- (size_list_to_set (C := gset string) (remove_dups l))
    by apply NoDup_remove_dups.
  f_equal. apply set_eq. intros x.
  by rewrite !elem_of_list_to_set, elem_of_remove_dups.
Qed.

Lemma size_token_overlap (l pool : list string) :
  size ((list_to_set l : gset string) ∩ list_to_set pool)
  = length (filter (λ t, t ∈ pool) (remove_dups l)).
Proof.
  rewrite <- (size_list_to_set (C := gset string)
                (filter (λ t, t ∈ pool) (remove_dups l)))
    by (apply NoDup_filter, NoDup_remove_dups).
  f_equal. apply set_eq. intros x.
  rewrite elem_of_intersection, !elem_of_list_to_set, list_elem_of_filter,
    elem_of_remove_dups.
  tauto.
Qed.

End Tokens.

(** ** The heuristic scorer *)

Section Heuristic.

Lemma truediv_pos (x : Q) (n : Z) :
  (0 < n)%Z → Py.truediv x (inject_Z n) = Ok (rnd (x / inject_Z n)).
Proof.
  intros Hn. unfold Py.truediv.
  destruct (Qeq_bool (inject_Z n) 0) eqn:E; [|done].
  apply Qeq_bool_iff in E. unfold Qeq in E. simpl in E. lia.
Qed.

(** The guarded division of the two overlap scores. *)
Lemma overlap_fraction (l pool : list string) :
  (let overlap :=
     Z.of_nat (size ((list_to_set l : gset string) ∩ list_to_set pool)) in
   let total := Z.of_nat (size (list_to_set l : gset string)) in
   if (0 <? total)%Z
   then Py.truediv (inject_Z overlap) (inject_Z total)
   else Ok 0%Q)
  = Ok (fraction_among (remove_dups l) pool).
Proof.
  simpl. rewrite size_token_set, size_token_overlap.
  unfold fraction_among, Py.len.
  destruct (remove_dups l) as [|t ts] eqn:E; [done|].
  rewrite <- E. assert (0 < Z.of_nat (length (remove_dups l)))%Z as Hpos
    by (rewrite E; simpl; lia).
  apply Z.ltb_lt in Hpos as Hb. rewrite Hb. by apply truediv_pos.
Qed.

Lemma faithfulness_spec (response : string) (context : list string) :
  _calculate_faithfulness_heuristic response context
  = Ok (spec_faithfulness response context).
Proof.
  unfold _calculate_faithfulness_heuristic, spec_faithfulness.
  destruct context as [|d ds]; [by destruct response|].
  destruct response as [|c s]; [done|].
  cbn [Py.truthy_list Py.truthy_str negb orb].
  rewrite context_words_tokens.
  pose proof (overlap_fraction (Py.split (Py.lower (String c s)))
                (documents_tokens (d :: ds))) as H.
  cbv zeta in H. rewrite H. done.
Qed.

Lemma relevancy_spec (query response : string) :
  _calculate_relevancy_heuristic query response
  = Ok (spec_answer_relevancy query response).
Proof.
  unfold _calculate_relevancy_heuristic, spec_answer_relevancy.
  destruct query as [|c s]; [done|].
  destruct response as [|c' s']; [done|].
  cbn [Py.truthy_list Py.truthy_str negb orb].
  pose proof (overlap_fraction (Py.split (Py.lower (String c s)))
                (Py.split (Py.lower (String c' s')))) as H.
  cbv zeta in H. rewrite H. done.
Qed.

Lemma div_nonneg (a b : Z) :
  (0 <= a)%Z → (0 <= b)%Z → (0 <= inject_Z a / inject_Z b)%Q.
Proof.
  intros Ha Hb. unfold Qdiv. apply Qmult_le_0_compat.
  - unfold Qle. simpl. lia.
  - apply Qinv_le_0_compat. unfold Qle. simpl. lia.
Qed.

Lemma fraction_among_nonneg (tokens pool : list string) :
  (0 <= fraction_among tokens pool)%Q.
Proof.
  unfold fraction_among. destruct tokens; [done|].
  apply rnd_nonneg, div_nonneg; unfold Py.len; lia.
Qed.

Lemma spec_faithfulness_unit (response : string) (docs : list string) :
  unit_interval (spec_faithfulness response docs).
Proof.
  unfold spec_faithfulness.
  destruct response, docs; auto using fraction_among_nonneg with unit.
Qed.

Lemma spec_answer_relevancy_unit (query response : string) :
  unit_interval (spec_answer_relevancy query response).
Proof.
  unfold spec_answer_relevancy.
  destruct query, response; auto using fraction_among_nonneg with unit.
Qed.

Lemma scaled_unit (x : Q) (n : Z) :
  (0 <= x)%Q → (0 < n)%Z →
  ∃ v, (y ← Py.truediv x (inject_Z n); Ok (round3 (Py.min y 1))) = Ok v
       ∧ unit_interval v.
Proof.
  intros Hx Hn. rewrite truediv_pos by done. eexists. split; [done|].
  apply round3_unit, min_1_unit, rnd_nonneg.
  unfold Qdiv. apply Qmult_le_0_compat; [done|].
  apply Qinv_le_0_compat. unfold Qle. simpl. lia.
Qed.

Lemma sum_lengths_nonneg (l : list string) :
  (0 <= foldr Z.add 0 (Py.len_str <$> l))%Z.
Proof.
  induction l as [|x l IH]; [done|].
  rewrite fmap_cons. cbn [foldr]. unfold Py.len_str at 1. lia.
Qed.

Lemma mean_lengths_nonneg (d : string) (ds : list string) :
  ∃ avg, Py.statistics_mean_int (Py.len_str <$> d :: ds) = Ok avg
         ∧ (0 <= avg)%Q.
Proof.
  unfold Py.statistics_mean_int.
  pose proof (sum_lengths_nonneg (d :: ds)) as Hs.
  set (total := foldr Z.add 0%Z (Py.len_str <$> d :: ds)) in *.
  set (n := Py.len (Py.len_str <$> d :: ds)).
  assert (0 < n)%Z as Hn by (subst n; unfold Py.len; simpl; lia).
  change (Py.len_str <$> d :: ds)
    with (Py.len_str d :: (Py.len_str <$> ds)).
  cbv iota beta.
  destruct (total `mod` n =? 0)%Z; eexists; (split; [done|]).
  - assert (0 <= total / n)%Z by (apply Z.div_pos; lia).
    unfold Qle. simpl. lia.
  - apply rnd_nonneg. unfold Qle. simpl. lia.
Qed.

Lemma precision_unit (context : list string) :
  ∃ v, _calculate_precision_heuristic context = Ok v ∧ unit_interval v.
Proof.
  unfold _calculate_precision_heuristic.
  destruct context as [|d ds]; [exists 0%Q; split; [done | apply unit_0]|].
  cbn [Py.truthy_list negb].
  destruct (mean_lengths_nonneg d ds) as (avg & -> & Havg).
  apply (scaled_unit avg 500); [done | lia].
Qed.

Lemma recall_unit (context : list string) :
  ∃ v, _calculate_recall_heuristic context = Ok v ∧ unit_interval v.
Proof.
  unfold _calculate_recall_heuristic.
  destruct context as [|d ds]; [exists 0%Q; split; [done | apply unit_0]|].
  cbn [Py.truthy_list negb].
  apply (scaled_unit _ 10); [|lia].
  unfold Py.len, Qle. simpl. lia.
Qed.

End Heuristic.

(** ** Means *)

Section MeanLemmas.

Lemma sumQ_bounds (l : list Q) :
  Forall unit_interval l →
  (0 <= Py.sumQ l)%Q ∧ (Py.sumQ l <= inject_Z (Py.len l))%Q.
Proof.
  induction 1 as [|x l [Hx0 Hx1] _ [IH0 IH1]]; [done|].
  unfold Py.len in *. cbn [Py.sumQ foldr length]. split.
  - change 0%Q with (0 + 0)%Q. by apply Qplus_le_compat.
  - rewrite Nat2Z.inj_succ, <- Z.add_1_l, inject_Z_plus.
    by apply Qplus_le_compat.
Qed.

Lemma statistics_mean_ok (l : list Q) :
  l ≠ [] → Py.statistics_mean l = Ok (arithmetic_mean l).
Proof. by destruct l. Qed.

Lemma arithmetic_mean_unit (l : list Q) :
  l ≠ [] → Forall unit_interval l → unit_interval (arithmetic_mean l).
Proof.
  intros Hl Hall. apply rnd_unit.
  destruct (sumQ_bounds l Hall) as [H0 H1].
  assert (0 < inject_Z (Py.len l))%Q as Hn.
  { destruct l; [done|]. unfold Py.len, Qlt. simpl. lia. }
  split.
  - apply Qle_shift_div_l; [done|]. by rewrite Qmult_0_l.
  - apply Qle_shift_div_r; [done|]. by rewrite Qmult_1_l.
Qed.

Lemma arithmetic_mean_4 (a b c d : Q) :
  (Py.sumQ [a; b; c; d] / inject_Z (Py.len [a; b; c; d])
   == (a + b + c + d) / 4)%Q.
Proof. unfold Py.len. simpl. field. Qed.

End MeanLemmas.

Section Evaluate.

(** The evaluation of one record, written out. *)
Lemma evaluate_result (r : EvaluationRecord) :
  let query := get (query r) ""%string in
  let response := get (generated_response r) ""%string in
  let context := get (retrieved_documents r) [] in
  let metadata := get (metadata r) empty_metadata in
  ∃ p c,
    _calculate_precision_heuristic context = Ok p
    ∧ _calculate_recall_heuristic context = Ok c
    ∧ unit_interval p ∧ unit_interval c
    ∧ _evaluate_result_heuristic r
      = Ok {| ev_query := query;
              metrics :=
                {| faithfulness := spec_faithfulness response context;
                   answer_relevancy := spec_answer_relevancy query response;
                   context_precision := p;
                   context_recall := c |};
              ev_metadata :=
                {| user_role := get (userRole metadata) "unknown"%string;
                   processing_time_ms := get (processingTimeMs metadata) 0%Q;
                   source_count := get (sourceCount metadata) 0%Q;
                   session_id := get (sessionId metadata) ""%string;
                   ev_timestamp := get (timestamp metadata) ""%string |};
              overall_score :=
                round3 (arithmetic_mean
                          [spec_faithfulness response context;
                           spec_answer_relevancy query response; p; c]) |}.
Proof.
  intros query response context metadata.
  destruct (precision_unit context) as (p & Hp & Hpu).
  destruct (recall_unit context) as (c & Hc & Hcu).
  exists p, c. repeat (split; [done|]).
  unfold _evaluate_result_heuristic.
  fold query response context metadata.
  rewrite faithfulness_spec, relevancy_spec, Hp, Hc. done.
Qed.

End Evaluate.

(** ** The aggregator *)

Section Aggregator.

Lemma for_each_app {S A : Type} (body : S → A → res S) (s : S)
    (l1 l2 : list A) :
  for_each body s (l1 ++ l2)
  = (s' ← for_each body s l1; for_each body s' l2).
Proof.
  revert s. induction l1 as [|x l1 IH]; intros s; [done|].
  simpl. destruct (body s x) as [s'|e]; simpl; [apply IH | done].
Qed.

Lemma of_role_snoc_eq (role : string) (evs : list Evaluation)
    (e : Evaluation) :
  user_role (ev_metadata e) = role →
  of_role role (evs ++ [e]) = of_role role evs ++ [e].
Proof.
  intros Heq. unfold of_role.
  by rewrite filter_app, (filter_cons_True _ e []).
Qed.

Lemma of_role_snoc_ne (role : string) (evs : list Evaluation)
    (e : Evaluation) :
  user_role (ev_metadata e) ≠ role →
  of_role role (evs ++ [e]) = of_role role evs.
Proof.
  intros Hne. unfold of_role.
  rewrite filter_app, (filter_cons_False _ e []) by done.
  apply (right_id_L [] (++)).
Qed.

Lemma scores_of_snoc (evs : list Evaluation) (e : Evaluation) :
  scores_of (evs ++ [e]) = append_scores (scores_of evs) e.
Proof. unfold scores_of, append_scores. simpl. by rewrite !fmap_app. Qed.

Lemma len_snoc {A : Type} (l : list A) (x : A) :
  Py.len (l ++ [x]) = (Py.len l + 1)%Z.
Proof. unfold Py.len. rewrite length_app. simpl. lia. Qed.

Lemma sum_acc_counts_insert (m : gmap string RoleAcc) (role : string)
    (a : RoleAcc) :
  sum_acc_counts (<[role := a]> m)
  = (count a + sum_acc_counts m - from_option count 0 (m !! role))%Z.
Proof.
  unfold sum_acc_counts.
  destruct (m !! role) as [old|] eqn:E; simpl.
  - rewrite <- insert_delete_eq.
    rewrite map_fold_insert_L; [|intros; lia | apply lookup_delete_eq].
    rewrite (map_fold_delete_L _ _ role old m); [lia | intros; lia | done].
  - rewrite map_fold_insert_L; [lia | intros; lia | done].
Qed.

(** The state of the accumulation loop after the whole traversal. *)
Lemma accumulate_loop (evs : list Evaluation) :
  ∃ m : gmap string RoleAcc,
    for_each accumulate (∅, empty_scores) evs = Ok (m, scores_of evs)
    ∧ (∀ role, m !! role
               = if decide (of_role role evs = []) then None
                 else Some (acc_of role evs))
    ∧ sum_acc_counts m = Py.len evs.
Proof.
  induction evs as [|e evs (m & Hloop & Hm & Hsum)] using rev_ind.
  { exists ∅. split; [done|]. split; [|done].
    intros role. by rewrite lookup_empty. }
  rewrite for_each_app, Hloop. cbn [mbind res_mbind res_bind for_each].
  unfold accumulate.
  set (role0 := user_role (ev_metadata e)).
  set (m1 := match m !! role0 with
             | Some _ => m
             | None => <[role0 := {| count := 0; scores := empty_scores |}]> m
             end).
  assert (∃ old, m1 !! role0 = Some old
                 ∧ count old = from_option count 0%Z (m !! role0)
                 ∧ (count old + 1)%Z = count (acc_of role0 (evs ++ [e]))
                 ∧ append_scores (scores old) e
                   = scores (acc_of role0 (evs ++ [e]))
                 ∧ <[role0 := acc_of role0 (evs ++ [e])]> m1
                   = <[role0 := acc_of role0 (evs ++ [e])]> m)
    as (old & Hold & Hcnt & Hc & Hs & Hins).
  { subst m1. unfold acc_of. rewrite of_role_snoc_eq by done.
    rewrite len_snoc, scores_of_snoc.
    pose proof (Hm role0) as H0. destruct (m !! role0) as [old|] eqn:E.
    - exists old. case_decide; [done|]. injection H0 as ->. by repeat split.
    - eexists. rewrite lookup_insert_eq. split; [done|].
      case_decide as Hnil; [|done]. rewrite Hnil.
      repeat split. by rewrite insert_insert_eq. }
  rewrite Hold. run.
  exists (<[role0 := acc_of role0 (evs ++ [e])]> m).
  split; [|split].
  - rewrite scores_of_snoc, <- Hins. do 3 f_equal.
    destruct (acc_of role0 (evs ++ [e])) as [c s]. simpl in *. by rewrite Hc, Hs.
  - intros role. destruct (decide (role0 = role)) as [<-|Hne].
    + rewrite lookup_insert_eq, of_role_snoc_eq by done.
      case_decide as Hnil; [|done].
      by destruct (of_role role0 evs).
    + rewrite lookup_insert_ne, Hm by done.
      unfold acc_of. by rewrite of_role_snoc_ne.
  - rewrite sum_acc_counts_insert, Hsum, len_snoc, <- Hcnt, <- Hc. lia.
Qed.

Lemma mean_scores_ok (evs : list Evaluation) :
  evs ≠ [] → mean_scores (scores_of evs) = Ok (means_of evs).
Proof. by destruct evs. Qed.

Lemma sum_counts_insert_fresh (b : gmap string RoleReport) (role : string)
    (r : RoleReport) :
  b !! role = None →
  sum_counts (<[role := r]> b) = (role_count r + sum_counts b)%Z.
Proof.
  intros Hb. unfold sum_counts.
  rewrite map_fold_insert_L; [done | intros; lia | done].
Qed.

(** The loop over [metrics_by_role.items()]. *)
Lemma by_role_loop (evs : list Evaluation) (m : gmap string RoleAcc) :
  (∀ role acc, m !! role = Some acc →
               acc = acc_of role evs ∧ of_role role evs ≠ []) →
  ∃ b : gmap string RoleReport,
    map_fold summarize_role (Ok ∅) m = Ok b
    ∧ (∀ role, b !! role = (λ _, role_report_of role evs) <$> m !! role)
    ∧ sum_counts b = sum_acc_counts m.
Proof.
  apply (map_fold_weak_ind
           (λ r m,
              (∀ role acc, m !! role = Some acc →
                           acc = acc_of role evs ∧ of_role role evs ≠ []) →
              ∃ b : gmap string RoleReport,
                r = Ok b
                ∧ (∀ role, b !! role
                           = (λ _, role_report_of role evs) <$> m !! role)
                ∧ sum_counts b = sum_acc_counts m)).
  - intros _. exists ∅. split; [done|]. split; [|done].
    intros role. by rewrite !lookup_empty.
  - clear m. intros role acc m r Hfresh IH Hm.
    destruct IH as (b & -> & Hb & Hsum).
    { intros role' acc' Hl. apply Hm.
      rewrite lookup_insert_ne; [done|]. intros ->. congruence. }
    destruct (Hm role acc) as [-> Hne]; [apply lookup_insert_eq|].
    unfold summarize_role. run.
    change (scores (acc_of role evs)) with (scores_of (of_role role evs)).
    change (count (acc_of role evs)) with (Py.len (of_role role evs)).
    rewrite mean_scores_ok by done. run.
    eexists. split; [done|]. split.
    + intros role'. destruct (decide (role = role')) as [<-|Hd].
      * by rewrite !lookup_insert_eq.
      * by rewrite !lookup_insert_ne, Hb.
    + rewrite sum_counts_insert_fresh by (by rewrite Hb, Hfresh).
      rewrite sum_acc_counts_insert, Hfresh, Hsum. simpl. lia.
Qed.

(** The report of a non-empty sequence of evaluations. *)
Lemma aggregate_report (env : Env) (self : RagasEvaluator) :
  evaluations self ≠ [] →
  ∃ b : gmap string RoleReport,
    calculate_aggregate_metrics env self
    = Ok (Aggregate
            {| total_evaluations := Py.len (evaluations self);
               agg_timestamp := now env;
               overall_metrics := means_of (evaluations self);
               by_role := b |})
    ∧ (∀ role, b !! role
               = if decide (of_role role (evaluations self) = []) then None
                 else Some (role_report_of role (evaluations self)))
    ∧ sum_counts b = Py.len (evaluations self).
Proof.
  intros Hne. unfold calculate_aggregate_metrics.
  destruct (evaluations self) as [|e0 evs0] eqn:E; [done|].
  cbn [Py.truthy_list negb]. rewrite <- E in *.
  destruct (accumulate_loop (evaluations self)) as (m & -> & Hm & Hsum).
  run.
  rewrite mean_scores_ok by done. cbn [res_bind].
  destruct (by_role_loop (evaluations self) m) as (b & -> & Hb & Hsb).
  { intros role acc Hl. rewrite Hm in Hl. case_decide; [done|].
    by injection Hl as <-. }
  cbn [res_bind]. exists b. split; [done|]. split; [|congruence].
  intros role. rewrite Hb, Hm. by case_decide.
Qed.

(** The entry of a role that occurs. *)
Lemma role_entry (env : Env) (self : RagasEvaluator) (e : Evaluation) :
  e ∈ evaluations self →
  ∃ b : gmap string RoleReport,
    calculate_aggregate_metrics env self
    = Ok (Aggregate
            {| total_evaluations := Py.len (evaluations self);
               agg_timestamp := now env;
               overall_metrics := means_of (evaluations self);
               by_role := b |})
    ∧ b !! user_role (ev_metadata e)
      = Some (role_report_of (user_role (ev_metadata e)) (evaluations self))
    ∧ (1 <= Py.len (of_role (user_role (ev_metadata e)) (evaluations self)))%Z.
Proof.
  intros He.
  assert (e ∈ of_role (user_role (ev_metadata e)) (evaluations self)) as Hin
    by (by apply list_elem_of_filter).
  assert (evaluations self ≠ []) as Hne
    by (intros Hnil; rewrite Hnil in He; by apply not_elem_of_nil in He).
  destruct (aggregate_report env self Hne) as (b & -> & Hb & _).
  exists b. split; [done|]. rewrite Hb.
  destruct (of_role (user_role (ev_metadata e)) (evaluations self)) eqn:E.
  - by apply not_elem_of_nil in Hin.
  - rewrite decide_False by done. split; [done|].
    unfold Py.len. simpl. lia.
Qed.

End Aggregator.

(** ** Whitespace-only texts *)

Section Whitespace.

Lemma isspace_lower_char (c : ascii) :
  Py.isspace (Py.lower_char c) = Py.isspace c.
Proof. by destruct c as [[] [] [] [] [] [] [] []]. Qed.

Lemma split_from_spaces (s : string) :
  forallb Py.isspace (list_ascii_of_string s) = true →
  Py.split_from [] s = [].
Proof.
  induction s as [|c s IH]; [done|]. simpl.
  intros [Hc Hs]%andb_true_iff. rewrite Hc. simpl. by apply IH.
Qed.

Lemma spaces_lower (s : string) :
  forallb Py.isspace (list_ascii_of_string (Py.lower s))
  = forallb Py.isspace (list_ascii_of_string s).
Proof.
  induction s as [|c s IH]; [done|]. simpl.
  by rewrite isspace_lower_char, IH.
Qed.

Lemma whitespace_only_tokens (s : string) :
  whitespace_only s → Py.split (Py.lower s) = [].
Proof.
  intros [_ Hs]. apply split_from_spaces. by rewrite spaces_lower.
Qed.

Lemma fraction_among_nil (tokens : list string) :
  fraction_among tokens [] = 0%Q.
Proof.
  unfold fraction_among. destruct tokens as [|t ts]; [done|].
  replace (filter (λ t0, t0 ∈ []) (t :: ts)) with (@nil string); [done|].
  symmetry. induction (t :: ts) as [|x l IH]; [done|].
  rewrite filter_cons_False; [done|]. apply not_elem_of_nil.
Qed.

Lemma faithfulness_blank (response : string) (docs : list string) :
  whitespace_only response → spec_faithfulness response docs = 0%Q.
Proof.
  intros Hw. pose proof (whitespace_only_tokens _ Hw) as Ht.
  unfold spec_faithfulness, distinct_tokens. rewrite Ht.
  by destruct response, docs.
Qed.

Lemma relevancy_blank_query (query response : string) :
  whitespace_only query → spec_answer_relevancy query response = 0%Q.
Proof.
  intros Hw. pose proof (whitespace_only_tokens _ Hw) as Ht.
  unfold spec_answer_relevancy, distinct_tokens. rewrite Ht.
  by destruct query, response.
Qed.

Lemma relevancy_blank_response (query response : string) :
  whitespace_only response → spec_answer_relevancy query response = 0%Q.
Proof.
  intros Hw. pose proof (whitespace_only_tokens _ Hw) as Ht.
  unfold spec_answer_relevancy. rewrite Ht, fraction_among_nil.
  by destruct query, response.
Qed.

End Whitespace.

(** ** The pipeline *)

Section Pipeline.

Lemma evaluate_result_ok (r : EvaluationRecord) :
  ∃ e, _evaluate_result_heuristic r = Ok e.
Proof. destruct (evaluate_result r) as (p & c & _ & _ & _ & _ & ->). eauto. Qed.

Lemma fallback_loop (rs : list EvaluationRecord) (acc : list Evaluation) :
  ∃ evs,
    for_each (λ evs result,
                evaluation ← _evaluate_result_heuristic result;
                Ok (evs ++ [evaluation])) acc rs
    = Ok (acc ++ evs)
    ∧ Forall2 (λ r e, _evaluate_result_heuristic r = Ok e) rs evs.
Proof.
  revert acc. induction rs as [|r rs IH]; intros acc.
  { exists []. by rewrite (right_id_L [] (++)). }
  destruct (evaluate_result_ok r) as [e He].
  destruct (IH (acc ++ [e])) as (evs & Hloop & Hall).
  exists (e :: evs). cbn [for_each]. rewrite He.
  run. rewrite Hloop, <- (assoc_L (++)).
  split; [done|]. by constructor.
Qed.

(** The heuristic path never fails and scores every record. *)
Lemma fallback_ok (self : RagasEvaluator) :
  ∃ evs,
    _fallback_evaluation self
    = Ok ({| results_file := results_file self;
             results := results self;
             evaluations := evs |}, HeuristicDict evs)
    ∧ Forall2 (λ r e, _evaluate_result_heuristic r = Ok e)
        (results self) evs.
Proof.
  unfold _fallback_evaluation.
  destruct (fallback_loop (results self) []) as (evs & -> & Hall).
  by exists evs.
Qed.

Lemma evaluate_all_absent (env : Env) (self : RagasEvaluator) :
  evaluate_all (without_ragas env) self = _fallback_evaluation self.
Proof. done. Qed.

(** [main] when the heuristic path is taken from the start. *)
Lemma main_heuristic (env : Env) :
  ragas env = None →
  main env
  = (evaluator ← init env "rag-test-results.json";
     '(evaluator, _) ← _fallback_evaluation evaluator;
     aggregate ← calculate_aggregate_metrics env evaluator;
     _ ← print_summary aggregate;
     Ok (evaluator, Some aggregate)).
Proof.
  intros Hr. unfold main.
  destruct (init env "rag-test-results.json") as [self|]; [|done].
  run.
  unfold evaluate_all. rewrite Hr.
  destruct (fallback_ok self) as (evs & -> & _). done.
Qed.

(** [main] when the external call returns a non-empty dictionary of
    scores: the dictionary of [process_ragas_results] is overwritten. *)
Lemma main_external (env : Env) (evaluate : Dataset → res ext_result)
    (d : gmap string ext_val) :
  ragas env = Some evaluate →
  (∀ dataset, evaluate dataset = Ok (ExtDict d)) →
  d ≠ ∅ → d !! "evaluations"%string = None →
  main env = main (without_ragas env).
Proof.
  intros Hr Hd Hne Hkey.
  rewrite (main_heuristic (without_ragas env)) by done.
  unfold main.
  change (init (without_ragas env)) with (init env).
  destruct (init env "rag-test-results.json") as [self|]; [|done].
  run.
  unfold evaluate_all, prepare_dataset. rewrite Hr, Hd.
  run.
  rewrite decide_False by done. rewrite Hkey. done.
Qed.

End Pipeline.

(** ** The claims *)

(** C1 (as amended).  With zero evaluations the aggregation step does not
    fail: it returns the empty dictionary, which has no
    [total_evaluations], no [by_role] and no [overall_metrics] entry. *)
Theorem aggregate_of_nothing (env : Env) (self : RagasEvaluator) :
  evaluations self = [] →
  calculate_aggregate_metrics env self = Ok EmptyDict
  ∧ report_total_evaluations EmptyDict = None
  ∧ report_by_role EmptyDict = None
  ∧ report_overall_metrics EmptyDict = None.
Proof.
  intros Hnil. unfold calculate_aggregate_metrics. by rewrite Hnil.
Qed.

Lemma aggregate_of_nothing_witness :
  evaluations fresh_evaluator = []
  ∧ calculate_aggregate_metrics env_empty fresh_evaluator = Ok EmptyDict.
Proof.
  split; [reflexivity|].
  apply (aggregate_of_nothing env_empty fresh_evaluator). reflexivity.
Defined.

(** C1 as stated fails: on zero evaluations the step returns no report
    whose [total_evaluations] is 0 and whose [by_role] is empty. *)
Lemma zero_valued_report_refuted :
  ¬ ∃ r, calculate_aggregate_metrics env_empty fresh_evaluator = Ok r
         ∧ report_total_evaluations r = Some 0%Z
         ∧ report_by_role r = Some ∅.
Proof. intros (r & Hr & Ht & _). injection Hr as <-. discriminate Ht. Qed.

(** On an input file with no record the summary cannot be printed. *)
Example main_on_no_record :
  main env_empty = Raise (KeyError "total_evaluations").
Proof. reflexivity. Qed.

(** C2 (the code departs from it).  The external scorer returns the
    aggregate [faithfulness = 0.5] for one record whose heuristic
    faithfulness is 1: the per-record evaluations are the heuristic ones,
    but the report's [overall_metrics] holds the heuristic mean 1, not the
    external 0.5 that [process_ragas_results] had rounded, and the whole
    result is the one of a run without the external scorer. *)
Theorem external_scores_overwritten :
  report_overall_metrics (process_ragas_results sample_scores)
  = Some {[ "faithfulness"%string := (1 # 2)%Q ]}
  ∧ main env_scored = main (without_ragas env_scored)
  ∧ ∃ self a,
      main env_scored = Ok (self, Some (Aggregate a))
      ∧ Forall2 (λ r e, _evaluate_result_heuristic r = Ok e)
          (results self) (evaluations self)
      ∧ means_dict (overall_metrics a) !! "faithfulness"%string = Some 1%Q.
Proof.
  split; [vm_compute; reflexivity|]. split.
  - apply (main_external env_scored (λ _, Ok (ExtDict sample_scores))
             sample_scores).
    + reflexivity.
    + reflexivity.
    + apply map_non_empty_singleton.
    + by apply lookup_singleton_ne.
  - eexists _, _. split; [vm_compute; reflexivity|].
    split; [|vm_compute; reflexivity].
    cbn [results evaluations]. repeat constructor.
Qed.

(** The external scorer is installed and its batched call raises. *)
Section RaisingScorer.

Context (env : Env) (evaluate : Dataset → res ext_result).
Hypothesis installed : ragas env = Some evaluate.
Hypothesis raises : ∀ dataset, ∃ e, evaluate dataset = Raise e.

Lemma evaluate_all_raising (self : RagasEvaluator) :
  evaluate_all env self = _fallback_evaluation self.
Proof.
  unfold evaluate_all, prepare_dataset. rewrite installed.
  match goal with |- context [evaluate ?d] =>
    destruct (raises d) as [e ->] end.
  done.
Qed.

Lemma main_raising : main env = main (without_ragas env).
Proof.
  rewrite (main_heuristic (without_ragas env)) by done.
  unfold main.
  change (init (without_ragas env)) with (init env).
  destruct (init env "rag-test-results.json") as [self|]; [|done].
  run. rewrite evaluate_all_raising.
  destruct (fallback_ok self) as (evs & -> & _). done.
Qed.

(** C3.  When the external scorer is installed and its batched call
    raises, [evaluate_all] and [main] return exactly what they return
    when the scorer is absent: the same evaluations, the same report. *)
Theorem raising_scorer_as_absent :
  (∀ self, evaluate_all env self = evaluate_all (without_ragas env) self)
  ∧ main env = main (without_ragas env).
Proof.
  split; [|apply main_raising].
  intros self. rewrite evaluate_all_absent. apply evaluate_all_raising.
Qed.

End RaisingScorer.

Lemma raising_scorer_as_absent_witness :
  main env_raising = main (without_ragas env_raising).
Proof.
  apply (raising_scorer_as_absent env_raising (λ _, Raise TypeError)).
  - reflexivity.
  - intros dataset. exists TypeError. reflexivity.
Defined.

(** C4.  The heuristic faithfulness is the fraction of the distinct
    lowercased whitespace-delimited tokens of the response that occur
    among the tokens of the lowercased documents, capped at 1 and rounded
    to three digits; it is 0 when the response is empty and when there is
    no document.  The code joins the documents with single spaces before
    it lowercases and tokenizes them, which yields the tokens of the
    documents one after the other. *)
Theorem faithfulness_heuristic_spec (response : string)
    (context : list string) :
  _calculate_faithfulness_heuristic response context
  = Ok (spec_faithfulness response context)
  ∧ Py.split (Py.lower (Py.join " " context)) = documents_tokens context
  ∧ _calculate_faithfulness_heuristic "" context = Ok 0%Q
  ∧ _calculate_faithfulness_heuristic response [] = Ok 0%Q.
Proof.
  split; [apply faithfulness_spec|].
  split; [apply context_words_tokens|].
  split; [by destruct context | by destruct response].
Qed.

(** C5.  Every record is scored; each of the four scores lies between 0
    and 1; the overall score is the mean of the four, rounded to three
    digits, and lies between 0 and 1 as well. *)
Theorem heuristic_scores_in_range (r : EvaluationRecord) :
  ∃ e, _evaluate_result_heuristic r = Ok e
       ∧ unit_interval (faithfulness (metrics e))
       ∧ unit_interval (answer_relevancy (metrics e))
       ∧ unit_interval (context_precision (metrics e))
       ∧ unit_interval (context_recall (metrics e))
       ∧ overall_score e
         = round3 (arithmetic_mean
                     [faithfulness (metrics e); answer_relevancy (metrics e);
                      context_precision (metrics e);
                      context_recall (metrics e)])
       ∧ unit_interval (overall_score e).
Proof.
  destruct (evaluate_result r) as (p & c & _ & _ & Hp & Hc & ->).
  eexists. split; [done|]. cbn [metrics faithfulness answer_relevancy
    context_precision context_recall overall_score].
  pose proof (spec_faithfulness_unit (get (generated_response r) ""%string)
                (get (retrieved_documents r) [])) as Hf.
  pose proof (spec_answer_relevancy_unit (get (query r) ""%string)
                (get (generated_response r) ""%string)) as Ha.
  repeat (split; [done|]).
  apply round3_unit, arithmetic_mean_unit; [done|].
  do 4 (constructor; [done|]). constructor.
Qed.

(** C6.  For a non-empty list of evaluations the report is produced, the
    [count] fields of [by_role] sum to [total_evaluations], the keys of
    [by_role] are exactly the roles that occur, and every entry counts
    the evaluations of its role, at least one, so that no mean is taken
    over an empty list. *)
Theorem by_role_counts (env : Env) (self : RagasEvaluator) :
  evaluations self ≠ [] →
  ∃ a, calculate_aggregate_metrics env self = Ok (Aggregate a)
       ∧ total_evaluations a = Py.len (evaluations self)
       ∧ sum_counts (by_role a) = total_evaluations a
       ∧ dom (by_role a) = list_to_set (roles_of (evaluations self))
       ∧ ∀ role r, by_role a !! role = Some r →
                   role_count r = Py.len (of_role role (evaluations self))
                   ∧ of_role role (evaluations self) ≠ []
                   ∧ (1 <= role_count r)%Z.
Proof.
  intros Hne. destruct (aggregate_report env self Hne) as (b & -> & Hb & Hs).
  eexists. split; [done|]. cbn [total_evaluations by_role].
  split; [done|]. split; [done|]. split.
  - apply set_eq. intros role.
    rewrite elem_of_dom, Hb, elem_of_list_to_set. unfold roles_of.
    rewrite list_elem_of_fmap. case_decide as Hnil; split.
    + by intros [? ?].
    + intros (e & -> & He).
      assert (e ∈ of_role (user_role (ev_metadata e)) (evaluations self))
        as Hin by (by apply list_elem_of_filter).
      rewrite Hnil in Hin. by apply not_elem_of_nil in Hin.
    + intros _. destruct (of_role role (evaluations self)) as [|e l] eqn:E;
        [done|].
      assert (e ∈ of_role role (evaluations self)) as Hin
        by (rewrite E; left).
      apply list_elem_of_filter in Hin as [<- Hin]. by exists e.
    + done.
  - intros role r. rewrite Hb. case_decide as Hnil; [done|].
    intros [= <-]. cbn [role_report_of role_count].
    split; [done|]. split; [done|].
    unfold Py.len. destruct (of_role role (evaluations self)); [done|].
    simpl. lia.
Qed.

Lemma by_role_counts_witness :
  evaluations scored_evaluator ≠ []
  ∧ ∃ a, calculate_aggregate_metrics env_raising scored_evaluator
         = Ok (Aggregate a)
         ∧ sum_counts (by_role a) = 3%Z.
Proof.
  split; [discriminate|].
  destruct (by_role_counts env_raising scored_evaluator)
    as (a & Ha & Ht & Hs & _); [discriminate|].
  exists a. split; [exact Ha|]. rewrite Hs, Ht. reflexivity.
Defined.

(** C7.  For a role that occurs among the evaluations, each of the five
    entries of [by_role] for that role is the mean of that score over
    exactly the evaluations of the role, rounded to three digits; the
    entries of [overall_metrics] are the same means over all the
    evaluations. *)
Theorem by_role_means (env : Env) (self : RagasEvaluator) (role : string) :
  role ∈ roles_of (evaluations self) →
  ∃ a r, calculate_aggregate_metrics env self = Ok (Aggregate a)
         ∧ by_role a !! role = Some r
         ∧ mean_faithfulness (role_means r)
           = round3 (arithmetic_mean
                       ((λ e, faithfulness (metrics e))
                          <$> of_role role (evaluations self)))
         ∧ role_means r = means_of (of_role role (evaluations self))
         ∧ overall_metrics a = means_of (evaluations self).
Proof.
  intros Hrole. unfold roles_of in Hrole.
  apply list_elem_of_fmap in Hrole as (e & -> & He).
  destruct (role_entry env self e He) as (b & -> & Hb & _).
  eexists _, _. split; [done|]. by split.
Qed.

Lemma by_role_means_witness :
  "admin"%string ∈ roles_of (evaluations scored_evaluator)
  ∧ ∃ a r, calculate_aggregate_metrics env_raising scored_evaluator
           = Ok (Aggregate a)
           ∧ by_role a !! "admin"%string = Some r
           ∧ role_means r
             = means_of (of_role "admin" (evaluations scored_evaluator)).
Proof.
  assert ("admin"%string ∈ roles_of (evaluations scored_evaluator)) as Hin
    by (left).
  split; [exact Hin|].
  destruct (by_role_means env_raising scored_evaluator "admin" Hin)
    as (a & r & Ha & Hr & _ & Hm & _).
  exists a, r. repeat split; assumption.
Defined.

(** C8.  The heuristic answer relevancy is the fraction of the distinct
    lowercased whitespace-delimited tokens of the query that occur among
    the tokens of the lowercased response, capped at 1 and rounded to
    three digits; it is 0 when the query or the response is empty. *)
Theorem relevancy_heuristic_spec (query response : string) :
  _calculate_relevancy_heuristic query response
  = Ok (spec_answer_relevancy query response)
  ∧ _calculate_relevancy_heuristic "" response = Ok 0%Q
  ∧ _calculate_relevancy_heuristic query "" = Ok 0%Q.
Proof.
  split; [apply relevancy_spec|]. split; [done|]. by destruct query.
Qed.

(** C9.  A file without [results] loads as an empty sequence of records;
    every record is scored, and exactly as the record in which each
    absent key holds its default: the empty string for the query and the
    response, no document, the role ["unknown"], and 0 for the processing
    time and the source count.  A record without role is counted in the
    [by_role] entry of ["unknown"]. *)
Theorem missing_fields_default (env : Env) (self : RagasEvaluator)
    (r : EvaluationRecord) :
  (fs env (results_file self) = Some {| doc_results := None |} →
   ∃ self', load_results env self = Ok self' ∧ results self' = [])
  ∧ (∃ e, _evaluate_result_heuristic r = Ok e
          ∧ _evaluate_result_heuristic (with_defaults r) = Ok e
          ∧ (query r = None → ev_query e = ""%string)
          ∧ (generated_response r = None →
             faithfulness (metrics e) = 0%Q
             ∧ answer_relevancy (metrics e) = 0%Q)
          ∧ (retrieved_documents r = None →
             faithfulness (metrics e) = 0%Q
             ∧ context_precision (metrics e) = 0%Q
             ∧ context_recall (metrics e) = 0%Q)
          ∧ (metadata_field userRole r = None →
             user_role (ev_metadata e) = "unknown"%string)
          ∧ (metadata_field processingTimeMs r = None →
             processing_time_ms (ev_metadata e) = 0%Q)
          ∧ (metadata_field sourceCount r = None →
             source_count (ev_metadata e) = 0%Q))
  ∧ (r ∈ results self → metadata_field userRole r = None →
     ∃ self' out a entry,
       _fallback_evaluation self = Ok (self', out)
       ∧ calculate_aggregate_metrics env self' = Ok (Aggregate a)
       ∧ by_role a !! "unknown"%string = Some entry
       ∧ (1 <= role_count entry)%Z).
Proof.
  destruct (evaluate_result r) as (p & c & Hp & Hc & _ & _ & He).
  assert (metadata_field userRole r = None →
          get (userRole (get (metadata r) empty_metadata)) "unknown"%string
          = "unknown"%string) as Hunknown.
  { unfold metadata_field. destruct (metadata r); cbn [get];
      [by intros ->|done]. }
  split; [|split].
  - intros Hfs. unfold load_results. rewrite Hfs. by eexists.
  - eexists. split; [exact He|].
    split; [by rewrite <- He|].
    cbn [ev_query metrics ev_metadata faithfulness answer_relevancy
           context_precision context_recall user_role processing_time_ms
           source_count].
    split; [by intros ->|].
    split.
    { intros ->. cbn [get]. split; [done|].
      unfold spec_answer_relevancy. by destruct (get (query r) ""%string). }
    split.
    { intros Hd. rewrite Hd in *. cbn [get] in *.
      injection Hp as <-. injection Hc as <-.
      split; [|done]. unfold spec_faithfulness.
      by destruct (get (generated_response r) ""%string). }
    split; [done|].
    unfold metadata_field. destruct (metadata r) as [m|]; cbn [get].
    + split; by intros ->.
    + done.
  - intros Hin Hrole.
    destruct (fallback_ok self) as (evs & Hfb & Hall).
    apply list_elem_of_lookup in Hin as [i Hi].
    destruct (Forall2_lookup_l _ _ _ _ _ Hall Hi) as (e & Hie & Hev).
    rewrite He in Hev. injection Hev as <-.
    set (self' := {| results_file := results_file self;
                     results := results self; evaluations := evs |}) in *.
    destruct (role_entry env self' _ (list_elem_of_lookup_2 _ _ _ Hie))
      as (b & Hagg & Hb & Hcount).
    cbn [ev_metadata user_role] in Hb, Hcount. rewrite Hunknown in * by done.
    eexists _, _, _, _. split; [exact Hfb|]. split; [exact Hagg|].
    split; [exact Hb|]. exact Hcount.
Qed.

Lemma missing_fields_default_witness :
  (∃ self', load_results env_no_results fresh_evaluator = Ok self'
            ∧ results self' = [])
  ∧ (∃ e, _evaluate_result_heuristic bare_record = Ok e
          ∧ ev_query e = ""%string
          ∧ user_role (ev_metadata e) = "unknown"%string)
  ∧ ∃ self' out a entry,
      _fallback_evaluation bare_evaluator = Ok (self', out)
      ∧ calculate_aggregate_metrics env_no_results self' = Ok (Aggregate a)
      ∧ by_role a !! "unknown"%string = Some entry
      ∧ (1 <= role_count entry)%Z.
Proof.
  destruct (missing_fields_default env_no_results fresh_evaluator bare_record)
    as (Hload & (e & He & _ & Hq & _ & _ & Hrole & _) & _).
  destruct (missing_fields_default env_no_results bare_evaluator bare_record)
    as (_ & _ & Hgroup).
  split; [apply Hload; reflexivity|]. split.
  - exists e. split; [exact He|].
    split; [apply Hq | apply Hrole]; reflexivity.
  - apply Hgroup; [left | reflexivity].
Defined.

(** C10.  A response or a query that holds only whitespace passes the
    emptiness guard and has no token; the guarded division then yields 0
    and no division by zero occurs, so both overlap scores are defined
    on all strings. *)
Theorem blank_text_scores_zero (query response : string)
    (context : list string) :
  (whitespace_only response →
   _calculate_faithfulness_heuristic response context = Ok 0%Q)
  ∧ (whitespace_only query ∨ whitespace_only response →
     _calculate_relevancy_heuristic query response = Ok 0%Q)
  ∧ (∃ v, _calculate_faithfulness_heuristic response context = Ok v)
  ∧ (∃ v, _calculate_relevancy_heuristic query response = Ok v).
Proof.
  rewrite faithfulness_spec, relevancy_spec.
  split; [by intros ->%(faithfulness_blank response context)|].
  split; [|eauto].
  intros [Hw|Hw].
  - by rewrite relevancy_blank_query.
  - by rewrite relevancy_blank_response.
Qed.

Lemma blank_text_scores_zero_witness :
  whitespace_only "  "
  ∧ _calculate_faithfulness_heuristic "  " ["some context"%string] = Ok 0%Q
  ∧ _calculate_relevancy_heuristic "  " "an answer" = Ok 0%Q.
Proof.
  assert (whitespace_only "  ") as Hw by (split; [discriminate | reflexivity]).
  destruct (blank_text_scores_zero "  " "  " ["some context"%string])
    as (Hf & _).
  destruct (blank_text_scores_zero "  " "an answer" ["some context"%string])
    as (_ & Hr & _).
  split; [exact Hw|]. split; [apply Hf, Hw | apply Hr; left; exact Hw].
Defined.

(** * Further properties *)

(** ** Rounding depends on the value only *)

Section RoundingValue.

Local Open Scope Z_scope.

Lemma rhe_div_proper (n d n' d' : Z) :
  0 < d → 0 < d' → n * d' = n' * d → rhe_div n d = rhe_div n' d'.
Proof.
  intros Hd Hd' Heq. unfold rhe_div.
  pose proof (Z.div_mod n d ltac:(lia)) as Hn.
  pose proof (Z.mod_pos_bound n d Hd) as Hr.
  pose proof (Z.div_mod n' d' ltac:(lia)) as Hn'.
  pose proof (Z.mod_pos_bound n' d' Hd') as Hr'.
  set (q := n / d) in *. set (r := n mod d) in *.
  set (q' := n' / d') in *. set (r' := n' mod d') in *.
  assert (d * d' * (q - q') = r' * d - r * d') as Hq
    by (rewrite Hn, Hn' in Heq; lia).
  assert (0 <= r * d' < d * d') by nia.
  assert (0 <= r' * d < d * d') by nia.
  assert (q = q') as <- by nia.
  assert (r * d' = r' * d) as Hrr by nia.
  destruct (Z.compare_spec (2 * r) d), (Z.compare_spec (2 * r') d');
    try done; nia.
Qed.

(** [k] is the floor of the binary logarithm of [n / d]. *)
Lemma ilog2_scaled (n d s : Z) :
  0 < n → 0 < d → 0 <= s → 0 <= s + ilog2 n d →
  d * 2 ^ (s + ilog2 n d) <= n * 2 ^ s < 2 * (d * 2 ^ (s + ilog2 n d)).
Proof.
  intros Hn Hd Hs Hsk. pose proof (ilog2_spec n d Hn Hd) as Hl.
  set (k := ilog2 n d) in *.
  assert (0 < 2 ^ s) by (apply Z.pow_pos_nonneg; lia).
  assert (0 < 2 ^ (s + k)) by (apply Z.pow_pos_nonneg; lia).
  destruct (0 <=? k) eqn:Hk.
  - apply Z.leb_le in Hk. rewrite Z.pow_add_r by lia.
    assert (0 < 2 ^ k) by (apply Z.pow_pos_nonneg; lia). nia.
  - apply Z.leb_gt in Hk.
    assert (2 ^ s = 2 ^ (s + k) * 2 ^ (- k)) as ->
      by (rewrite <- Z.pow_add_r by lia; f_equal; lia).
    nia.
Qed.

Lemma ilog2_proper (n d n' d' : Z) :
  0 < n → 0 < d → 0 < n' → 0 < d' → n * d' = n' * d →
  ilog2 n d = ilog2 n' d'.
Proof.
  intros Hn Hd Hn' Hd' Heq.
  set (s := Z.abs (ilog2 n d) + Z.abs (ilog2 n' d')).
  pose proof (ilog2_scaled n d s Hn Hd ltac:(lia) ltac:(lia)) as H1.
  pose proof (ilog2_scaled n' d' s Hn' Hd' ltac:(lia) ltac:(lia)) as H2.
  set (a := s + ilog2 n d) in *. set (a' := s + ilog2 n' d') in *.
  assert (0 < 2 ^ s) by (apply Z.pow_pos_nonneg; lia).
  assert (2 ^ a < 2 ^ (a' + 1)).
  { rewrite (Z.pow_add_r 2 a' 1) by lia. change (2 ^ 1) with 2.
    assert (d * d' * 2 ^ a < d * d' * (2 ^ a' * 2)) by nia. nia. }
  assert (2 ^ a' < 2 ^ (a + 1)).
  { rewrite (Z.pow_add_r 2 a 1) by lia. change (2 ^ 1) with 2.
    assert (d * d' * 2 ^ a' < d * d' * (2 ^ a * 2)) by nia. nia. }
  assert (a < a' + 1) by (apply (Z.pow_lt_mono_r_iff 2); lia).
  assert (a' < a + 1) by (apply (Z.pow_lt_mono_r_iff 2); lia).
  lia.
Qed.

Lemma rnd_pos_proper (n d n' d' : Z) :
  0 < n → 0 < d → 0 < n' → 0 < d' → n * d' = n' * d →
  rnd_pos n d = rnd_pos n' d'.
Proof.
  intros Hn Hd Hn' Hd' Heq. unfold rnd_pos, significand, exponent.
  rewrite (ilog2_proper n d n' d') by done.
  set (e := Z.max (ilog2 n' d' - 52) (-1074)).
  destruct (0 <=? e) eqn:He.
  - apply Z.leb_le in He.
    assert (0 < 2 ^ e) by (apply Z.pow_pos_nonneg; lia).
    by rewrite (rhe_div_proper n (d * 2 ^ e) n' (d' * 2 ^ e)) by nia.
  - apply Z.leb_gt in He.
    by rewrite (rhe_div_proper (n * 2 ^ (- e)) d (n' * 2 ^ (- e)) d') by nia.
Qed.

(** Two representations of one rational round to the same float. *)
Lemma rnd_proper (x y : Q) : (x == y)%Q → rnd x = rnd y.
Proof.
  destruct x as [n d], y as [n' d']. unfold Qeq, rnd. simpl. intros Heq.
  destruct n as [|n|n], n' as [|n'|n']; try lia; try done.
  - f_equal. apply rnd_pos_proper; lia.
  - do 2 f_equal. apply rnd_pos_proper; lia.
Qed.

Lemma round3_proper (x y : Q) : (x == y)%Q → round3 x = round3 y.
Proof.
  intros Heq. unfold round3, rhe. f_equal. f_equal.
  assert (x * 1000 == y * 1000)%Q as H by (by rewrite Heq).
  apply rhe_div_proper; [done..|]. exact H.
Qed.

Lemma rnd_canonical (x : Q) : Qred (rnd x) = rnd x.
Proof.
  unfold rnd. destruct (Qnum x); [done|apply Qred_complete, Qred_correct..].
Qed.

(** A float that equals 1 is the fraction [1 # 1]. *)
Lemma rnd_eq_1 (x : Q) : (rnd x == 1)%Q → rnd x = 1%Q.
Proof.
  intros H. rewrite <- rnd_canonical. by apply (Qred_complete _ 1).
Qed.

(** Rounding does not cross an integer that a float holds exactly. *)
Lemma rnd_ge_int (K : Z) (x : Q) :
  1 <= K <= 2 ^ 52 → (inject_Z K <= x)%Q → (inject_Z K <= rnd x)%Q.
Proof.
  intros HK Hx. destruct x as [n d]. unfold Qle in Hx. simpl in Hx.
  unfold rnd. simpl. destruct n as [|n|n]; [lia| |lia].
  rewrite Qred_correct.
  pose proof (ilog2_spec (Z.pos n) (Z.pos d) ltac:(done) ltac:(done)) as Hl.
  assert (0 <= ilog2 (Z.pos n) (Z.pos d)) as Hk.
  { destruct (0 <=? ilog2 (Z.pos n) (Z.pos d)) eqn:E;
      [by apply Z.leb_le in E|].
    apply Z.leb_gt in E.
    assert (2 ^ 1 <= 2 ^ (- ilog2 (Z.pos n) (Z.pos d)))
      by (apply Z.pow_le_mono_r; lia).
    change (2 ^ 1) with 2 in *. nia. }
  pose proof (significand_normal (Z.pos n) (Z.pos d)
                ltac:(done) ltac:(done) ltac:(lia)) as Hm.
  unfold rnd_pos. unfold significand in *.
  assert (exponent (Z.pos n) (Z.pos d) = ilog2 (Z.pos n) (Z.pos d) - 52)
    as He by (unfold exponent; lia).
  rewrite He in *. set (e := ilog2 (Z.pos n) (Z.pos d) - 52) in *.
  destruct (0 <=? e) eqn:E.
  - apply Z.leb_le in E.
    assert (1 <= 2 ^ e) by (apply (Z.pow_le_mono_r 2 0 e); lia).
    unfold Qle, inject_Z. simpl. nia.
  - apply Z.leb_gt in E.
    assert (0 < 2 ^ (- e)) as Hp by (apply Z.pow_pos_nonneg; lia).
    assert (K * 2 ^ (- e) <= rhe_div (Z.pos n * 2 ^ (- e)) (Z.pos d))
      by (apply rhe_div_ge; [done|nia]).
    unfold Qle. simpl. rewrite Z2Pos.id by done. lia.
Qed.

(** A quotient of at least 1 is capped to exactly 1. *)
Lemma capped_at_1 (x : Q) : (1 <= x)%Q → round3 (Py.min (rnd x) 1) = 1%Q.
Proof.
  intros Hx. pose proof (rnd_ge_int 1 x ltac:(done) Hx) as Hr.
  change (inject_Z 1) with 1%Q in Hr.
  rewrite (round3_proper _ 1); [done|].
  unfold Py.min. destruct (Q.min_spec (rnd x) 1) as [[Hlt _]|[_ ->]]; [|done].
  by apply Qlt_not_le in Hlt.
Qed.

Lemma round3_thousandth (x : Q) : unit_interval x → thousandth (round3 x).
Proof.
  intros [H0 H1]. exists (rhe (x * 1000)). split; [|done].
  assert (0 <= x * 1000)%Q as Hn by (apply Qmult_le_0_compat; done).
  assert (x * 1000 <= 1 * 1000)%Q as Hm
    by (by apply Qmult_le_compat_r).
  destruct (x * 1000)%Q as [n d]. unfold rhe. simpl.
  unfold Qle in Hn, Hm. simpl in Hn, Hm.
  split; [apply rhe_div_nonneg | apply rhe_div_le]; lia.
Qed.

(** The floats of the thousandths are left as they are by [round(x, 3)]
    and by a further rounding to float: checked on each of them. *)
Lemma thousandths_checked :
  forallb (λ i, let x := rnd (Qmake (Z.of_nat i) 1000) in
                Q_same (round3 x) x && Q_same (rnd x) x)
    (seq 0 1001) = true.
Proof. vm_compute. reflexivity. Qed.

Lemma Q_same_eq (x y : Q) : Q_same x y = true → x = y.
Proof.
  destruct x, y. unfold Q_same. simpl.
  intros [->%Z.eqb_eq ->%Pos.eqb_eq]%andb_true_iff. done.
Qed.

Lemma thousandth_fixed (x : Q) :
  thousandth x → round3 x = x ∧ rnd x = x.
Proof.
  intros (k & Hk & ->).
  pose proof (proj1 (forallb_forall _ _) thousandths_checked (Z.to_nat k))
    as H.
  cbv beta zeta in H. rewrite Z2Nat.id in H by lia.
  destruct (proj1 (andb_true_iff _ _) (H ltac:(apply in_seq; lia)))
    as [H1 H2].
  split; by apply Q_same_eq.
Qed.

Lemma thousandth_unit (x : Q) : thousandth x → unit_interval x.
Proof.
  intros (k & Hk & ->). apply rnd_unit. split; unfold Qle; simpl; lia.
Qed.

End RoundingValue.

(** ** More on the heuristic scores *)

Section HeuristicMore.

Lemma min_below_1 (x : Q) : (x <= 1)%Q → Py.min x 1 = x.
Proof.
  intros Hx. unfold Py.min, Qmin, GenericMinMax.gmin.
  by destruct (x ?= 1)%Q eqn:E.
Qed.

(** A score that is already a thousandth passes the cap and the rounding
    unchanged. *)
Lemma thousandth_kept (x : Q) : thousandth x → round3 (Py.min x 1) = x.
Proof.
  intros Hx. rewrite min_below_1 by apply (thousandth_unit x Hx).
  by apply thousandth_fixed.
Qed.

Lemma scaled_thousandth (x : Q) (n : Z) :
  (0 <= x)%Q → (0 < n)%Z →
  ∃ v, (y ← Py.truediv x (inject_Z n); Ok (round3 (Py.min y 1))) = Ok v
       ∧ thousandth v.
Proof.
  intros Hx Hn. rewrite truediv_pos by done. eexists. split; [done|].
  apply round3_thousandth, min_1_unit, rnd_nonneg.
  unfold Qdiv. apply Qmult_le_0_compat; [done|].
  apply Qinv_le_0_compat. unfold Qle. simpl. lia.
Qed.

Lemma thousandth_0 : thousandth 0.
Proof. exists 0%Z. split; [lia|done]. Qed.

Lemma thousandth_1 : thousandth 1.
Proof. exists 1000%Z. split; [lia|done]. Qed.

Lemma spec_faithfulness_thousandth (response : string) (docs : list string) :
  thousandth (spec_faithfulness response docs).
Proof.
  unfold spec_faithfulness.
  destruct response, docs; try apply thousandth_0;
    apply round3_thousandth, min_1_unit, fraction_among_nonneg.
Qed.

Lemma spec_answer_relevancy_thousandth (query response : string) :
  thousandth (spec_answer_relevancy query response).
Proof.
  unfold spec_answer_relevancy.
  destruct query, response; try apply thousandth_0;
    apply round3_thousandth, min_1_unit, fraction_among_nonneg.
Qed.

Lemma precision_thousandth (context : list string) :
  ∃ v, _calculate_precision_heuristic context = Ok v ∧ thousandth v.
Proof.
  unfold _calculate_precision_heuristic.
  destruct context as [|d ds];
    [exists 0%Q; split; [done | apply thousandth_0]|].
  cbn [Py.truthy_list negb].
  destruct (mean_lengths_nonneg d ds) as (avg & -> & Havg).
  apply (scaled_thousandth avg 500); [done | lia].
Qed.

Lemma recall_thousandth (context : list string) :
  ∃ v, _calculate_recall_heuristic context = Ok v ∧ thousandth v.
Proof.
  unfold _calculate_recall_heuristic.
  destruct context as [|d ds];
    [exists 0%Q; split; [done | apply thousandth_0]|].
  cbn [Py.truthy_list negb].
  apply (scaled_thousandth _ 10); [|lia].
  unfold Py.len, Qle. simpl. lia.
Qed.

(** X1.  The context recall depends on the number of documents only: it
    is the float of [min(n, 10) / 10], hence exactly 1 from ten documents
    on. *)
Theorem recall_by_count (context : list string) :
  context ≠ [] →
  _calculate_recall_heuristic context
  = Ok (rnd (Qmake (Z.min (Py.len context) 10) 10))
  ∧ ((10 <= Py.len context)%Z → _calculate_recall_heuristic context = Ok 1%Q).
Proof.
  intros Hne. unfold _calculate_recall_heuristic.
  destruct context as [|d ds]; [done|]. cbn [Py.truthy_list negb].
  rewrite (truediv_pos _ 10) by lia. run.
  set (n := Py.len (d :: ds)).
  assert (1 <= n)%Z as Hn by (subst n; unfold Py.len; simpl; lia).
  destruct (Z.le_gt_cases 10 n) as [Hbig|Hsmall].
  - rewrite Z.min_r by done.
    rewrite capped_at_1; [by split|].
    unfold Qle, Qdiv. simpl. lia.
  - rewrite Z.min_l by lia. split; [|lia]. f_equal.
    rewrite (rnd_proper _ (Qmake (100 * n) 1000)).
    + rewrite thousandth_kept; [|exists (100 * n)%Z; split; [lia|done]].
      apply rnd_proper. unfold Qeq. simpl. lia.
    + unfold Qeq, Qdiv. simpl. lia.
Qed.

Lemma recall_by_count_witness :
  _calculate_recall_heuristic ["a"; "b"; "c"]%string = Ok (rnd (3 # 10)).
Proof.
  apply (proj1 (recall_by_count ["a"; "b"; "c"]%string ltac:(discriminate))).
Defined.

Lemma sum_lengths_empty (l : list string) :
  Forall (λ d, d = ""%string) l → foldr Z.add 0%Z (Py.len_str <$> l) = 0%Z.
Proof.
  induction 1 as [|d l -> _ IH]; [done|].
  rewrite fmap_cons. cbn [foldr]. rewrite IH. done.
Qed.

(** X2.  The context precision is exactly 1 as soon as the documents hold
    500 characters on average, and 0 when every document is empty. *)
Theorem precision_saturates (context : list string) :
  context ≠ [] →
  ((500 * Py.len context <= foldr Z.add 0 (Py.len_str <$> context))%Z →
   _calculate_precision_heuristic context = Ok 1%Q)
  ∧ (Forall (λ d, d = ""%string) context →
     _calculate_precision_heuristic context = Ok 0%Q).
Proof.
  intros Hne. unfold _calculate_precision_heuristic.
  destruct context as [|d ds]; [done|]. cbn [Py.truthy_list negb].
  set (total := foldr Z.add 0%Z (Py.len_str <$> d :: ds)).
  set (n := Py.len (d :: ds)).
  assert (0 < n)%Z as Hn by (unfold n, Py.len; simpl; lia).
  assert (Py.statistics_mean_int (Py.len_str <$> d :: ds)
          = if (total `mod` n =? 0)%Z then Ok (inject_Z (total / n))
            else Ok (rnd (Qmake total (Z.to_pos n)))) as ->.
  { unfold Py.statistics_mean_int, total, n, Py.len.
    by rewrite fmap_cons, !length_cons, length_fmap. }
  split.
  - intros Hbig.
    assert (∃ avg, (if (total `mod` n =? 0)%Z
                    then Ok (inject_Z (total / n))
                    else Ok (rnd (Qmake total (Z.to_pos n)))) = Ok avg
                   ∧ (inject_Z 500 <= avg)%Q) as (avg & -> & Havg).
    { destruct (total `mod` n =? 0)%Z; eexists; (split; [done|]).
      - assert (500 <= total / n)%Z by (apply Z.div_le_lower_bound; lia).
        unfold Qle. simpl. lia.
      - apply rnd_ge_int; [lia|]. unfold Qle. cbn [Qnum Qden inject_Z].
        rewrite Z2Pos.id by done. lia. }
    run. rewrite (truediv_pos _ 500) by lia. run.
    rewrite capped_at_1; [done|].
    apply Qle_shift_div_l; [done|]. by rewrite Qmult_1_l.
  - intros Hempty. unfold total.
    rewrite (sum_lengths_empty (d :: ds) Hempty).
    rewrite Z.mod_0_l by lia. cbn [Z.eqb]. rewrite Z.div_0_l by lia.
    done.
Qed.

Lemma precision_saturates_witness :
  _calculate_precision_heuristic [""; ""]%string = Ok 0%Q.
Proof.
  apply (proj2 (precision_saturates [""; ""]%string ltac:(discriminate))).
  repeat constructor.
Defined.

Lemma filter_all {A : Type} (P : A → Prop) `{∀ x, Decision (P x)}
    (l : list A) :
  (∀ x, x ∈ l → P x) → filter P l = l.
Proof.
  induction l as [|x l IH]; intros Hall; [done|].
  rewrite filter_cons_True by (apply Hall; left).
  f_equal. apply IH. intros y Hy. apply Hall. by right.
Qed.

Lemma filter_none {A : Type} (P : A → Prop) `{∀ x, Decision (P x)}
    (l : list A) :
  (∀ x, x ∈ l → ¬ P x) → filter P l = [].
Proof.
  induction l as [|x l IH]; intros Hall; [done|].
  rewrite filter_cons_False by (apply Hall; left).
  apply IH. intros y Hy. apply Hall. by right.
Qed.

Lemma fraction_among_all (tokens pool : list string) :
  tokens ≠ [] → (∀ t, t ∈ tokens → t ∈ pool) →
  fraction_among tokens pool = 1%Q.
Proof.
  intros Hne Hall. unfold fraction_among.
  destruct tokens as [|t ts]; [done|].
  rewrite filter_all by done.
  rewrite (rnd_proper _ 1); [done|].
  unfold Py.len, Qeq, Qdiv. simpl. lia.
Qed.

Lemma fraction_among_none (tokens pool : list string) :
  (∀ t, t ∈ tokens → t ∉ pool) → fraction_among tokens pool = 0%Q.
Proof.
  intros Hnone. unfold fraction_among.
  destruct tokens as [|t ts]; [done|]. by rewrite filter_none.
Qed.

Lemma fraction_among_ext (tokens pool pool' : list string) :
  (∀ t, t ∈ pool ↔ t ∈ pool') →
  fraction_among tokens pool = fraction_among tokens pool'.
Proof.
  intros Hext. unfold fraction_among.
  by rewrite (list_filter_iff (λ t, t ∈ pool) (λ t, t ∈ pool')).
Qed.

Lemma remove_dups_not_nil (l : list string) : l ≠ [] → remove_dups l ≠ [].
Proof.
  destruct l as [|t ts]; [done|]. intros _ Hnil.
  assert (t ∈ remove_dups (t :: ts)) as Hin
    by (apply elem_of_remove_dups; left).
  rewrite Hnil in Hin. by apply not_elem_of_nil in Hin.
Qed.

(** X3.  The faithfulness is exactly 1 when the response has a token and
    each of its tokens occurs in some document, and exactly 0 when none
    of its tokens does. *)
Theorem faithfulness_extremes (response : string) (context : list string) :
  (Py.split (Py.lower response) ≠ [] → context ≠ [] →
   (∀ t, t ∈ Py.split (Py.lower response) → t ∈ documents_tokens context) →
   _calculate_faithfulness_heuristic response context = Ok 1%Q)
  ∧ ((∀ t, t ∈ Py.split (Py.lower response) → t ∉ documents_tokens context) →
     _calculate_faithfulness_heuristic response context = Ok 0%Q).
Proof.
  rewrite faithfulness_spec. unfold spec_faithfulness, distinct_tokens.
  split.
  - intros Htok Hctx Hall.
    destruct response as [|c s]; [done|]. destruct context as [|d ds]; [done|].
    rewrite fraction_among_all; [done| |].
    + by apply remove_dups_not_nil.
    + intros t Ht. apply Hall. by apply elem_of_remove_dups.
  - intros Hnone. rewrite fraction_among_none.
    + by destruct response, context.
    + intros t Ht. apply Hnone. by apply elem_of_remove_dups.
Qed.

Lemma faithfulness_extremes_witness :
  _calculate_faithfulness_heuristic "X is a thing"
    ["X is a thing used for Y"%string] = Ok 1%Q
  ∧ _calculate_faithfulness_heuristic "no overlap"
      ["X is a thing used for Y"%string] = Ok 0%Q.
Proof.
  split.
  - apply (proj1 (faithfulness_extremes "X is a thing"
                    ["X is a thing used for Y"%string]));
      [discriminate | discriminate |].
    apply Forall_forall, (bool_decide_unpack _). vm_compute. exact I.
  - apply (proj2 (faithfulness_extremes "no overlap"
                    ["X is a thing used for Y"%string])).
    apply Forall_forall, (bool_decide_unpack _). vm_compute. exact I.
Defined.

(** X4.  The answer relevancy is exactly 1 when the query has a token and
    each of its tokens occurs in the response, and exactly 0 when none of
    its tokens does. *)
Theorem relevancy_extremes (query response : string) :
  (Py.split (Py.lower query) ≠ [] →
   (∀ t, t ∈ Py.split (Py.lower query) → t ∈ Py.split (Py.lower response)) →
   _calculate_relevancy_heuristic query response = Ok 1%Q)
  ∧ ((∀ t, t ∈ Py.split (Py.lower query) →
           t ∉ Py.split (Py.lower response)) →
     _calculate_relevancy_heuristic query response = Ok 0%Q).
Proof.
  rewrite relevancy_spec. unfold spec_answer_relevancy, distinct_tokens.
  split.
  - intros Htok Hall.
    destruct query as [|c s]; [done|].
    destruct response as [|c' s'].
    { destruct (Py.split (Py.lower (String c s))) as [|t ts] eqn:E; [done|].
      specialize (Hall t ltac:(left)). by apply not_elem_of_nil in Hall. }
    rewrite fraction_among_all; [done| |].
    + by apply remove_dups_not_nil.
    + intros t Ht. apply Hall. by apply elem_of_remove_dups.
  - intros Hnone. rewrite fraction_among_none.
    + by destruct query, response.
    + intros t Ht. apply Hnone. by apply elem_of_remove_dups.
Qed.

Lemma relevancy_extremes_witness :
  _calculate_relevancy_heuristic "what is x" "X is what it is" = Ok 1%Q.
Proof.
  apply (proj1 (relevancy_extremes "what is x" "X is what it is"));
    [discriminate|].
  apply Forall_forall, (bool_decide_unpack _). vm_compute. exact I.
Defined.

Lemma lower_char_idemp (c : ascii) :
  Py.lower_char (Py.lower_char c) = Py.lower_char c.
Proof. by destruct c as [[] [] [] [] [] [] [] []]. Qed.

Lemma lower_idemp (s : string) : Py.lower (Py.lower s) = Py.lower s.
Proof.
  induction s as [|c s IH]; [done|]. simpl. by rewrite lower_char_idemp, IH.
Qed.

Lemma lower_empty (s : string) : Py.lower s = ""%string → s = ""%string.
Proof. by destruct s. Qed.

Lemma spec_faithfulness_case (response response' : string)
    (docs docs' : list string) :
  Py.lower response = Py.lower response' →
  Py.lower <$> docs = Py.lower <$> docs' →
  spec_faithfulness response docs = spec_faithfulness response' docs'.
Proof.
  intros Hr Hd. unfold spec_faithfulness, distinct_tokens, documents_tokens.
  rewrite !(list_fmap_compose Py.lower Py.split), Hr, Hd.
  destruct response as [|c s].
  { symmetry in Hr. apply lower_empty in Hr as ->. done. }
  destruct response' as [|c' s']; [done|].
  destruct docs as [|d ds].
  { destruct docs'; [done | discriminate Hd]. }
  destruct docs' as [|d' ds']; [discriminate Hd | done].
Qed.

Lemma spec_answer_relevancy_case (query query' response response' : string) :
  Py.lower query = Py.lower query' →
  Py.lower response = Py.lower response' →
  spec_answer_relevancy query response
  = spec_answer_relevancy query' response'.
Proof.
  intros Hq Hr. unfold spec_answer_relevancy, distinct_tokens.
  rewrite Hq, Hr.
  destruct query as [|c s].
  { symmetry in Hq. apply lower_empty in Hq as ->. done. }
  destruct query' as [|c' s']; [done|].
  destruct response as [|a r].
  { symmetry in Hr. apply lower_empty in Hr as ->. done. }
  destruct response' as [|a' r']; [done | done].
Qed.

(** X5.  The two overlap scores ignore the case of the letters: texts
    with the same lowercase form get the same scores, and in particular a
    text and its lowercase form do. *)
Theorem overlap_scores_ignore_case (query query' response response' : string)
    (context context' : list string) :
  Py.lower query = Py.lower query' →
  Py.lower response = Py.lower response' →
  Py.lower <$> context = Py.lower <$> context' →
  _calculate_faithfulness_heuristic response context
  = _calculate_faithfulness_heuristic response' context'
  ∧ _calculate_relevancy_heuristic query response
    = _calculate_relevancy_heuristic query' response'
  ∧ _calculate_faithfulness_heuristic (Py.lower response)
      (Py.lower <$> context)
    = _calculate_faithfulness_heuristic response context.
Proof.
  intros Hq Hr Hc. rewrite !faithfulness_spec, !relevancy_spec.
  split; [by rewrite (spec_faithfulness_case response response'
                        context context')|].
  split; [by rewrite (spec_answer_relevancy_case query query'
                        response response')|].
  f_equal. apply spec_faithfulness_case; [apply lower_idemp|].
  rewrite <- list_fmap_compose. apply list_fmap_ext.
  intros i d _. apply lower_idemp.
Qed.

Lemma overlap_scores_ignore_case_witness :
  _calculate_faithfulness_heuristic "X Is A Thing" ["x is a THING"%string]
  = _calculate_faithfulness_heuristic "x is a thing" ["X IS A thing"%string]
  ∧ _calculate_relevancy_heuristic "What is X" "X Is A Thing"
    = _calculate_relevancy_heuristic "WHAT IS x" "x is a thing".
Proof.
  destruct (overlap_scores_ignore_case "What is X" "WHAT IS x"
              "X Is A Thing" "x is a thing"
              ["x is a THING"%string] ["X IS A thing"%string])
    as (Hf & Hr & _); [reflexivity..|].
  split; [exact Hf | exact Hr].
Defined.

Lemma documents_tokens_elem (docs : list string) (t : string) :
  t ∈ documents_tokens docs
  ↔ ∃ doc, doc ∈ docs ∧ t ∈ Py.split (Py.lower doc).
Proof.
  unfold documents_tokens. rewrite list_elem_of_join. split.
  - intros (l & Ht & (doc & -> & Hdoc)%list_elem_of_fmap). eauto.
  - intros (doc & Hdoc & Ht). eexists. split; [done|].
    apply list_elem_of_fmap. eauto.
Qed.

Lemma sum_lengths_permutation (l l' : list string) :
  l ≡ₚ l' →
  foldr Z.add 0%Z (Py.len_str <$> l) = foldr Z.add 0%Z (Py.len_str <$> l').
Proof.
  induction 1 as [|x l l' _ IH|x y l|l l' l'' _ IH1 _ IH2];
    rewrite ?fmap_cons; cbn [foldr]; [done|lia|lia|congruence].
Qed.

(** X6.  The order of the retrieved documents does not matter: the
    faithfulness, the context precision and the context recall of a
    permutation of the documents are the same. *)
Theorem document_order_irrelevant (response : string)
    (context context' : list string) :
  context ≡ₚ context' →
  _calculate_faithfulness_heuristic response context
  = _calculate_faithfulness_heuristic response context'
  ∧ _calculate_precision_heuristic context
    = _calculate_precision_heuristic context'
  ∧ _calculate_recall_heuristic context
    = _calculate_recall_heuristic context'.
Proof.
  intros Hperm.
  assert (Py.len context = Py.len context') as Hlen
    by (unfold Py.len; by rewrite (Permutation_length Hperm)).
  assert (Py.truthy_list context = Py.truthy_list context') as Htruthy.
  { destruct context as [|d ds].
    - by apply Permutation_nil_l in Hperm as <-.
    - destruct context'; [|done].
      by apply Permutation_nil_r in Hperm. }
  split; [|split].
  - rewrite !faithfulness_spec. f_equal. unfold spec_faithfulness.
    rewrite (fraction_among_ext _ (documents_tokens context)
               (documents_tokens context')).
    + destruct context, context'; try done; by destruct response.
    + intros t. rewrite !documents_tokens_elem.
      by setoid_rewrite Hperm.
  - unfold _calculate_precision_heuristic. rewrite Htruthy.
    destruct (Py.truthy_list context'); [|done]. cbn [negb].
    unfold Py.statistics_mean_int.
    rewrite (sum_lengths_permutation context context' Hperm).
    assert (Py.len (Py.len_str <$> context)
            = Py.len (Py.len_str <$> context')) as ->
      by (unfold Py.len in *; by rewrite !length_fmap).
    destruct context as [|d ds], context' as [|d' ds']; done.
  - unfold _calculate_recall_heuristic. by rewrite Htruthy, Hlen.
Qed.

Lemma document_order_irrelevant_witness :
  _calculate_faithfulness_heuristic "a b" ["a c"; "b d"]%string
  = _calculate_faithfulness_heuristic "a b" ["b d"; "a c"]%string.
Proof.
  apply (document_order_irrelevant "a b" ["a c"; "b d"]%string
           ["b d"; "a c"]%string).
  apply perm_swap.
Defined.

Lemma evaluate_result_thousandths (r : EvaluationRecord) :
  ∃ e, _evaluate_result_heuristic r = Ok e
       ∧ thousandth (faithfulness (metrics e))
       ∧ thousandth (answer_relevancy (metrics e))
       ∧ thousandth (context_precision (metrics e))
       ∧ thousandth (context_recall (metrics e))
       ∧ thousandth (overall_score e).
Proof.
  destruct (evaluate_result r) as (p & c & Hp & Hc & Hpu & Hcu & ->).
  destruct (precision_thousandth (get (retrieved_documents r) []))
    as (p' & Hp' & Htp).
  destruct (recall_thousandth (get (retrieved_documents r) []))
    as (c' & Hc' & Htc).
  rewrite Hp in Hp'. injection Hp' as <-.
  rewrite Hc in Hc'. injection Hc' as <-.
  eexists. split; [done|].
  cbn [metrics faithfulness answer_relevancy context_precision
         context_recall overall_score].
  split; [apply spec_faithfulness_thousandth|].
  split; [apply spec_answer_relevancy_thousandth|].
  split; [done|]. split; [done|].
  apply round3_thousandth, arithmetic_mean_unit; [done|].
  constructor; [apply spec_faithfulness_unit|].
  constructor; [apply spec_answer_relevancy_unit|].
  do 2 (constructor; [done|]). constructor.
Qed.

(** X7.  Every score of a heuristic evaluation has three decimal digits:
    it is the float of [k / 1000] for an integer [k] from 0 to 1000, and
    rounding it to three digits once more leaves it as it is. *)
Theorem heuristic_scores_thousandths (r : EvaluationRecord) :
  ∃ e, _evaluate_result_heuristic r = Ok e
       ∧ Forall (λ x, thousandth x ∧ round3 x = x)
           [faithfulness (metrics e); answer_relevancy (metrics e);
            context_precision (metrics e); context_recall (metrics e);
            overall_score e].
Proof.
  destruct (evaluate_result_thousandths r)
    as (e & He & Hf & Ha & Hp & Hc & Ho).
  exists e. split; [done|].
  repeat (constructor; [split; [done | by apply thousandth_fixed]|]).
  constructor.
Qed.

End HeuristicMore.


(** ** More on the aggregator *)

Section AggregatorMore.

Lemma sumQ_permutation (l l' : list Q) :
  l ≡ₚ l' → (Py.sumQ l == Py.sumQ l')%Q.
Proof.
  unfold Py.sumQ.
  induction 1 as [|x l l' _ IH|x y l|l l' l'' _ IH1 _ IH2]; cbn [foldr].
  - reflexivity.
  - by rewrite IH.
  - ring.
  - by rewrite IH1.
Qed.

Lemma arithmetic_mean_permutation (l l' : list Q) :
  l ≡ₚ l' → arithmetic_mean l = arithmetic_mean l'.
Proof.
  intros Hperm. unfold arithmetic_mean. apply rnd_proper.
  rewrite (sumQ_permutation l l' Hperm).
  unfold Py.len. by rewrite (Permutation_length Hperm).
Qed.

Lemma means_of_permutation (evs evs' : list Evaluation) :
  evs ≡ₚ evs' → means_of evs = means_of evs'.
Proof.
  intros Hperm. unfold means_of.
  f_equal; f_equal; apply arithmetic_mean_permutation; by rewrite Hperm.
Qed.

Lemma role_report_of_permutation (role : string)
    (evs evs' : list Evaluation) :
  evs ≡ₚ evs' → role_report_of role evs = role_report_of role evs'.
Proof.
  intros Hperm.
  assert (of_role role evs ≡ₚ of_role role evs') as Hrole
    by (unfold of_role; by rewrite Hperm).
  unfold role_report_of. f_equal.
  - unfold Py.len. by rewrite (Permutation_length Hrole).
  - by apply means_of_permutation.
Qed.

(** X8.  The report does not depend on the order of the evaluations: a
    permutation of them gives the same totals, the same overall means and
    the same entry for every role. *)
Theorem aggregate_order_irrelevant (env : Env) (self self' : RagasEvaluator) :
  evaluations self ≡ₚ evaluations self' →
  calculate_aggregate_metrics env self
  = calculate_aggregate_metrics env self'.
Proof.
  intros Hperm.
  destruct (decide (evaluations self = [])) as [Hnil|Hne].
  { assert (evaluations self' = []) as Hnil'
      by (rewrite Hnil in Hperm; by apply Permutation_nil_l in Hperm).
    unfold calculate_aggregate_metrics. by rewrite Hnil, Hnil'. }
  assert (evaluations self' ≠ []) as Hne'.
  { intros Hnil'. rewrite Hnil' in Hperm.
    by apply Permutation_nil_r in Hperm. }
  destruct (aggregate_report env self Hne) as (b & -> & Hb & _).
  destruct (aggregate_report env self' Hne') as (b' & -> & Hb' & _).
  do 2 f_equal. f_equal.
  - unfold Py.len. by rewrite (Permutation_length Hperm).
  - by apply means_of_permutation.
  - apply map_eq. intros role. rewrite Hb, Hb'.
    rewrite (role_report_of_permutation role _ _ Hperm).
    assert (of_role role (evaluations self)
            ≡ₚ of_role role (evaluations self')) as Hrole
      by (unfold of_role; by rewrite Hperm).
    destruct (decide (of_role role (evaluations self) = [])) as [E|E],
             (decide (of_role role (evaluations self') = [])) as [E'|E'];
      try done.
    + rewrite E in Hrole. by apply Permutation_nil_l in Hrole.
    + rewrite E' in Hrole. by apply Permutation_nil_r in Hrole.
Qed.

Lemma aggregate_order_irrelevant_witness :
  calculate_aggregate_metrics env_raising scored_evaluator
  = calculate_aggregate_metrics env_raising
      {| results_file := results_file scored_evaluator;
         results := results scored_evaluator;
         evaluations := reverse (evaluations scored_evaluator) |}.
Proof.
  apply (aggregate_order_irrelevant env_raising scored_evaluator).
  symmetry. apply reverse_Permutation.
Defined.

Lemma sumQ_constant (l : list Q) (x : Q) :
  Forall (λ y, y = x) l → (Py.sumQ l == inject_Z (Py.len l) * x)%Q.
Proof.
  unfold Py.sumQ, Py.len.
  induction 1 as [|y l -> _ IH]; cbn [foldr length].
  - simpl. ring.
  - rewrite IH, Nat2Z.inj_succ, <- Z.add_1_l, inject_Z_plus. ring.
Qed.

Lemma arithmetic_mean_constant (l : list Q) (x : Q) :
  l ≠ [] → Forall (λ y, y = x) l → arithmetic_mean l = rnd x.
Proof.
  intros Hne Hall. unfold arithmetic_mean. apply rnd_proper.
  rewrite (sumQ_constant l x Hall).
  assert (¬ inject_Z (Py.len l) == 0)%Q as Hn.
  { destruct l; [done|]. unfold Py.len, Qeq. simpl. lia. }
  by field.
Qed.

Lemma mean_of_equal_scores (f : Evaluation → Q) (evs : list Evaluation)
    (e : Evaluation) :
  evs ≠ [] → Forall (λ e', f e' = f e) evs → thousandth (f e) →
  round3 (arithmetic_mean (f <$> evs)) = f e.
Proof.
  intros Hne Hall Hth.
  rewrite (arithmetic_mean_constant _ (f e)).
  - destruct (thousandth_fixed _ Hth) as [H3 Hr]. by rewrite Hr.
  - by destruct evs.
  - by apply Forall_fmap.
Qed.

(** X9.  When all the evaluations of a role carry the same scores, in
    particular when the role has a single evaluation, the entry of the
    role holds exactly these scores: averaging and rounding three-digit
    scores that agree changes nothing. *)
Theorem role_of_equal_scores (env : Env) (self : RagasEvaluator)
    (e : Evaluation) :
  e ∈ evaluations self →
  Forall thousandth (evaluation_scores e) →
  Forall (λ e', evaluation_scores e' = evaluation_scores e)
    (of_role (user_role (ev_metadata e)) (evaluations self)) →
  ∃ a r, calculate_aggregate_metrics env self = Ok (Aggregate a)
         ∧ by_role a !! user_role (ev_metadata e) = Some r
         ∧ role_means r = scores_as_means e.
Proof.
  intros He Hth Hsame.
  destruct (role_entry env self e He) as (b & -> & Hb & Hcount).
  eexists _, _. split; [done|]. split; [exact Hb|].
  cbn [role_report_of role_means].
  set (evs := of_role (user_role (ev_metadata e)) (evaluations self)) in *.
  assert (evs ≠ []) as Hne
    by (intros Hnil; rewrite Hnil in Hcount; unfold Py.len in Hcount;
        simpl in Hcount; lia).
  unfold evaluation_scores in Hth.
  apply Forall_cons in Hth as [Hf Hth]. apply Forall_cons in Hth as [Ha Hth].
  apply Forall_cons in Hth as [Hp Hth]. apply Forall_cons in Hth as [Hc Hth].
  apply Forall_cons in Hth as [Ho _].
  assert (∀ f : Evaluation → Q,
            (∀ e', evaluation_scores e' = evaluation_scores e → f e' = f e) →
            thousandth (f e) →
            round3 (arithmetic_mean (f <$> evs)) = f e) as Hmean.
  { intros f Hf' Hthf. apply mean_of_equal_scores; [done| |done].
    eapply Forall_impl; [exact Hsame|]. exact Hf'. }
  unfold means_of, scores_as_means. f_equal.
  - apply (Hmean (λ e, faithfulness (metrics e))); [by intros e' [=]|done].
  - apply (Hmean (λ e, answer_relevancy (metrics e)));
      [by intros e' [=]|done].
  - apply (Hmean (λ e, context_precision (metrics e)));
      [by intros e' [=]|done].
  - apply (Hmean (λ e, context_recall (metrics e))); [by intros e' [=]|done].
  - apply (Hmean overall_score); [by intros e' [=]|done].
Qed.

Lemma role_of_equal_scores_witness :
  ∃ a r,
    calculate_aggregate_metrics env_raising scored_evaluator
    = Ok (Aggregate a)
    ∧ by_role a !! "admin"%string = Some r
    ∧ role_means r = scores_as_means sample_evaluation.
Proof.
  apply (role_of_equal_scores env_raising scored_evaluator sample_evaluation).
  - left.
  - repeat constructor;
      match goal with |- thousandth ?x =>
        first [ exists 1000%Z; split; [lia | reflexivity]
              | exists 333%Z; split; [lia | reflexivity]
              | exists 46%Z; split; [lia | reflexivity]
              | exists 100%Z; split; [lia | reflexivity]
              | exists 370%Z; split; [lia | reflexivity]] end.
  - assert (of_role (user_role (ev_metadata sample_evaluation))
              (evaluations scored_evaluator) = [sample_evaluation]) as ->
      by (vm_compute; reflexivity).
    repeat constructor.
Defined.

Lemma means_of_thousandths (evs : list Evaluation) :
  evs ≠ [] →
  Forall (λ e, Forall unit_interval (evaluation_scores e)) evs →
  Forall thousandth (means_list (means_of evs)).
Proof.
  intros Hne Hall.
  assert (∀ f : Evaluation → Q,
            (∀ e, Forall unit_interval (evaluation_scores e) →
                  unit_interval (f e)) →
            thousandth (round3 (arithmetic_mean (f <$> evs)))) as Hmean.
  { intros f Hf. apply round3_thousandth, arithmetic_mean_unit.
    - by destruct evs.
    - apply Forall_fmap. eapply Forall_impl; [exact Hall|]. exact Hf. }
  unfold means_list, means_of, evaluation_scores in *.
  cbn [mean_faithfulness mean_answer_relevancy mean_context_precision
         mean_context_recall mean_overall_score].
  repeat (constructor;
          [apply Hmean; intros e He;
           repeat (apply Forall_cons in He as [? He]); done|]).
  constructor.
Qed.

(** X10.  When the scores of every evaluation lie between 0 and 1, so do
    the five overall means and the five means of every role, and each of
    them has three decimal digits. *)
Theorem aggregate_means_in_range (env : Env) (self : RagasEvaluator) :
  evaluations self ≠ [] →
  Forall (λ e, Forall unit_interval (evaluation_scores e))
    (evaluations self) →
  ∃ a, calculate_aggregate_metrics env self = Ok (Aggregate a)
       ∧ Forall (λ x, thousandth x ∧ unit_interval x)
           (means_list (overall_metrics a))
       ∧ ∀ role r, by_role a !! role = Some r →
                   Forall (λ x, thousandth x ∧ unit_interval x)
                     (means_list (role_means r)).
Proof.
  intros Hne Hall.
  destruct (aggregate_report env self Hne) as (b & -> & Hb & _).
  eexists. split; [done|]. cbn [overall_metrics by_role].
  assert (∀ l, Forall thousandth l →
               Forall (λ x, thousandth x ∧ unit_interval x) l) as Hboth.
  { intros l Hl. eapply Forall_impl; [exact Hl|].
    intros x Hx. split; [done | by apply thousandth_unit]. }
  split.
  - by apply Hboth, means_of_thousandths.
  - intros role r. rewrite Hb. case_decide as Hnil; [done|].
    intros [= <-]. cbn [role_report_of role_means].
    apply Hboth, means_of_thousandths; [done|].
    apply Forall_forall. intros e [_ He]%list_elem_of_filter.
    by apply (proj1 (Forall_forall _ _) Hall).
Qed.

Lemma aggregate_means_in_range_witness :
  ∃ a, calculate_aggregate_metrics env_raising scored_evaluator
       = Ok (Aggregate a)
       ∧ Forall (λ x, thousandth x ∧ unit_interval x)
           (means_list (overall_metrics a)).
Proof.
  destruct (aggregate_means_in_range env_raising scored_evaluator)
    as (a & Ha & Hm & _).
  - discriminate.
  - repeat constructor; vm_compute; discriminate.
  - exists a. split; [exact Ha | exact Hm].
Defined.

End AggregatorMore.

(** ** More on the pipeline *)

Section PipelineMore.

Lemma init_records (env : Env) :
  init env "rag-test-results.json"
  = match input_records env with
    | Some rs => Ok {| results_file := "rag-test-results.json";
                       results := rs; evaluations := [] |}
    | None => Raise FileNotFoundError
    end.
Proof.
  unfold init, load_results, input_records. cbn [results_file evaluations].
  by destruct (fs env "rag-test-results.json").
Qed.



(** X11.  The heuristic pass scores each record once: it leaves the
    records as they are, replaces whatever evaluations were there, and
    its [i]-th evaluation is the one of the [i]-th record, with the
    record's query and role (or their defaults). *)
Theorem fallback_scores_each_record (self : RagasEvaluator) :
  ∃ evs,
    _fallback_evaluation self
    = Ok ({| results_file := results_file self; results := results self;
             evaluations := evs |}, HeuristicDict evs)
    ∧ length evs = length (results self)
    ∧ ∀ i r, results self !! i = Some r →
             ∃ e, evs !! i = Some e
                  ∧ _evaluate_result_heuristic r = Ok e
                  ∧ ev_query e = get (query r) ""%string
                  ∧ user_role (ev_metadata e)
                    = get (metadata_field userRole r) "unknown"%string.
Proof.
  destruct (fallback_ok self) as (evs & Hfb & Hall).
  exists evs. split; [done|]. split; [symmetry; by eapply Forall2_length|].
  intros i r Hi.
  destruct (Forall2_lookup_l _ _ _ _ _ Hall Hi) as (e & Hie & Hev).
  exists e. split; [done|]. split; [done|].
  destruct (evaluate_result r) as (p & c & _ & _ & _ & _ & He).
  rewrite He in Hev. injection Hev as <-.
  cbn [ev_query ev_metadata user_role]. split; [done|].
  unfold metadata_field. by destruct (metadata r).
Qed.

Lemma fallback_scores_each_record_witness :
  ∃ evs e,
    _fallback_evaluation bare_evaluator
    = Ok ({| results_file := results_file bare_evaluator;
             results := results bare_evaluator;
             evaluations := evs |}, HeuristicDict evs)
    ∧ evs !! 0%nat = Some e
    ∧ user_role (ev_metadata e) = "unknown"%string.
Proof.
  destruct (fallback_scores_each_record bare_evaluator)
    as (evs & Hfb & _ & Heach).
  destruct (Heach 0%nat bare_record) as (e & Hie & _ & _ & Hrole);
    [reflexivity|].
  exists evs, e. split; [exact Hfb|]. split; [exact Hie | exact Hrole].
Defined.





(** X14.  When the external call returns without raising but its result
    is not a non-empty dictionary, [main] stops without report and
    without scoring: the records are loaded and no evaluation exists. *)
Theorem main_exits_on_unusable_result (env : Env)
    (evaluate : Dataset → res ext_result) (rs : list EvaluationRecord) :
  ragas env = Some evaluate →
  input_records env = Some rs →
  (∀ dataset, evaluate dataset = Ok ExtObject
              ∨ evaluate dataset = Ok (ExtDict ∅)) →
  ∃ self, main env = Ok (self, None)
          ∧ results self = rs ∧ evaluations self = [].
Proof.
  intros Hr Hrs Hret. unfold main. rewrite init_records, Hrs. run.
  unfold evaluate_all, prepare_dataset. rewrite Hr.
  match goal with |- context [evaluate ?ds] =>
    destruct (Hret ds) as [-> | ->] end; run; eexists; done.
Qed.

Lemma main_exits_on_unusable_result_witness :
  ∃ self,
    main {| fs := sample_files (Some [sample_record]);
            ragas := Some (λ _, Ok ExtObject); now := ""%string |}
    = Ok (self, None)
    ∧ evaluations self = [].
Proof.
  destruct (main_exits_on_unusable_result
              {| fs := sample_files (Some [sample_record]);
                 ragas := Some (λ _, Ok ExtObject); now := ""%string |}
              (λ _, Ok ExtObject) [sample_record])
    as (self & Hmain & _ & Hevs).
  - reflexivity.
  - reflexivity.
  - intros dataset. left. reflexivity.
  - exists self. split; [exact Hmain | exact Hevs].
Defined.

End PipelineMore.


(** ** The external result, the dataset and the exports *)

Section Boundary.



(** When the external scorer is installed it is called on a
    dataset of three columns of the length of the record list, whose
    [i]-th entries are the query, the response and the documents of the
    [i]-th record, or their defaults; a result that it returns is passed
    on with the evaluator unchanged, and an exception leads to the
    heuristic pass. *)
Theorem external_call_dataset (env : Env)
    (evaluate : Dataset → res ext_result) (self : RagasEvaluator) :
  ragas env = Some evaluate →
  ∃ dataset,
    prepare_dataset env self = Some dataset
    ∧ length (ds_query dataset) = length (results self)
    ∧ length (ds_generated_response dataset) = length (results self)
    ∧ length (ds_retrieved_documents dataset) = length (results self)
    ∧ (∀ i r, results self !! i = Some r →
              ds_query dataset !! i = Some (get (query r) ""%string)
              ∧ ds_generated_response dataset !! i
                = Some (get (generated_response r) ""%string)
              ∧ ds_retrieved_documents dataset !! i
                = Some (get (retrieved_documents r) []))
    ∧ evaluate_all env self
      = match evaluate dataset with
        | Ok ragas_results => Ok (self, External ragas_results)
        | Raise _ => _fallback_evaluation self
        end.
Proof.
  intros Hr. unfold evaluate_all, prepare_dataset. rewrite Hr.
  eexists. split; [done|].
  cbn [ds_query ds_generated_response ds_retrieved_documents].
  rewrite !length_fmap. repeat (split; [done|]). split; [|done].
  intros i r Hi. rewrite !list_lookup_fmap, Hi. done.
Qed.

Lemma external_call_dataset_witness :
  ∃ dataset,
    prepare_dataset env_scored
      {| results_file := "rag-test-results.json";
         results := [sample_record; bare_record]; evaluations := [] |}
    = Some dataset
    ∧ ds_query dataset = ["What is X?"; ""]%string.
Proof.
  destruct (external_call_dataset env_scored
              (λ _, Ok (ExtDict sample_scores))
              {| results_file := "rag-test-results.json";
                 results := [sample_record; bare_record];
                 evaluations := [] |})
    as (dataset & Hd & _); [reflexivity|].
  exists dataset. split; [exact Hd|].
  injection Hd as <-. reflexivity.
Defined.

(** X16.  [export_results] never fails, whatever the evaluations: the
    document holds the evaluations as they are and their number; the
    report in it carries the same number as [total_evaluations] when
    there is an evaluation, and is the empty dictionary when there is
    none. *)
Theorem export_results_document (env : Env) (self : RagasEvaluator) :
  ∃ doc,
    export_results env self = Ok doc
    ∧ export_evaluations doc = evaluations self
    ∧ source_file (export_metadata doc) = results_file self
    ∧ total_results_evaluated (export_metadata doc)
      = Py.len (evaluations self)
    ∧ report_total_evaluations (aggregate_metrics doc)
      = (if decide (evaluations self = []) then None
         else Some (total_results_evaluated (export_metadata doc)))
    ∧ (evaluations self = [] → aggregate_metrics doc = EmptyDict).
Proof.
  unfold export_results.
  destruct (decide (evaluations self = [])) as [Hnil|Hne].
  - unfold calculate_aggregate_metrics. rewrite Hnil.
    cbn [Py.truthy_list negb]. run. eexists. by repeat split.
  - destruct (aggregate_report env self Hne) as (b & -> & _).
    run. eexists. repeat split; try done.
Qed.

(** X17.  The rows of the CSV export form a table of ten columns under
    the fixed header, with one row per evaluation in their order; after a
    heuristic pass, row [i + 1] starts with the query and the role of
    the [i]-th record, or their defaults. *)
Theorem csv_rows_follow_records (self : RagasEvaluator) :
  length (export_csv self) = S (length (evaluations self))
  ∧ export_csv self !! 0%nat = Some csv_header
  ∧ Forall (λ row, length row = 10%nat) (export_csv self)
  ∧ (∀ i e, evaluations self !! i = Some e →
            export_csv self !! S i = Some (csv_row e))
  ∧ ∃ self' out,
      _fallback_evaluation self = Ok (self', out)
      ∧ length (export_csv self') = S (length (results self))
      ∧ ∀ i r, results self !! i = Some r →
               ∃ row, export_csv self' !! S i = Some row
                      ∧ row !! 0%nat
                        = Some (Text (get (query r) ""%string))
                      ∧ row !! 1%nat
                        = Some (Text (get (metadata_field userRole r)
                                        "unknown"%string)).
Proof.
  unfold export_csv.
  split; [by rewrite length_cons, length_fmap|]. split; [done|].
  split; [constructor; [done|]; by apply Forall_fmap, Forall_true|].
  split.
  { intros i e Hi. cbn [lookup]. simpl. by rewrite list_lookup_fmap, Hi. }
  destruct (fallback_ok self) as (evs & Hfb & Hall).
  eexists _, _. split; [exact Hfb|]. cbn [evaluations].
  split.
  { rewrite length_cons, length_fmap. f_equal. symmetry.
    by eapply Forall2_length. }
  intros i r Hi.
  destruct (Forall2_lookup_l _ _ _ _ _ Hall Hi) as (e & Hie & Hev).
  exists (csv_row e). split.
  { simpl. by rewrite list_lookup_fmap, Hie. }
  destruct (evaluate_result r) as (p & c & _ & _ & _ & _ & He).
  rewrite He in Hev. injection Hev as <-.
  cbn [csv_row ev_query ev_metadata user_role]. split; [done|].
  unfold metadata_field. by destruct (metadata r).
Qed.

Lemma csv_rows_follow_records_witness :
  ∃ self' out row,
    _fallback_evaluation bare_evaluator = Ok (self', out)
    ∧ export_csv self' !! 1%nat = Some row
    ∧ row !! 0%nat = Some (Text "")
    ∧ row !! 1%nat = Some (Text "unknown").
Proof.
  destruct (csv_rows_follow_records bare_evaluator)
    as (_ & _ & _ & _ & self' & out & Hfb & _ & Hrows).
  destruct (Hrows 0%nat bare_record) as (row & Hrow & Hq & Hrole);
    [reflexivity|].
  exists self', out, row. repeat split; assumption.
Defined.

End Boundary.

(** ** Rounding keeps the order *)

Section RoundingOrder.

Local Open Scope Z_scope.

Lemma rhe_div_mono (n d n' d' : Z) :
  0 < d → 0 < d' → n * d' <= n' * d → rhe_div n d <= rhe_div n' d'.
Proof.
  intros Hd Hd' Hle.
  destruct (Z.eq_dec (n * d') (n' * d)) as [Heq|Hne].
  { by rewrite (rhe_div_proper n d n' d'). }
  pose proof (rhe_div_nearest n d Hd) as Ha.
  pose proof (rhe_div_nearest n' d' Hd') as Hb.
  set (a := rhe_div n d) in *. set (b := rhe_div n' d') in *.
  destruct (Z.le_gt_cases a b) as [|Hgt]; [done|].
  assert (2 * a * d - d <= 2 * n) by lia.
  assert (2 * n' <= 2 * b * d' + d') by lia.
  assert (b + 1 <= a) by lia.
  assert ((2 * a - 1) * (d * d') <= 2 * n * d') by nia.
  assert (2 * n' * d <= (2 * b + 1) * (d * d')) by nia.
  assert ((2 * b + 1) * (d * d') <= (2 * a - 1) * (d * d')) by nia.
  lia.
Qed.

Lemma ilog2_mono (n d n' d' : Z) :
  0 < n → 0 < d → 0 < n' → 0 < d' → n * d' <= n' * d →
  ilog2 n d <= ilog2 n' d'.
Proof.
  intros Hn Hd Hn' Hd' Hle.
  set (s := Z.abs (ilog2 n d) + Z.abs (ilog2 n' d')).
  pose proof (ilog2_scaled n d s Hn Hd ltac:(lia) ltac:(lia)) as H1.
  pose proof (ilog2_scaled n' d' s Hn' Hd' ltac:(lia) ltac:(lia)) as H2.
  set (a := s + ilog2 n d) in *. set (a' := s + ilog2 n' d') in *.
  assert (0 < 2 ^ s) by (apply Z.pow_pos_nonneg; lia).
  assert (2 ^ a < 2 ^ (a' + 1)).
  { rewrite (Z.pow_add_r 2 a' 1) by lia. change (2 ^ 1) with 2.
    assert (d * d' * 2 ^ a <= n * d' * 2 ^ s) by nia.
    assert (n * d' * 2 ^ s <= n' * d * 2 ^ s) by nia.
    assert (n' * d * 2 ^ s < d * d' * (2 ^ a' * 2)) by nia.
    nia. }
  assert (a < a' + 1) by (apply (Z.pow_lt_mono_r_iff 2); lia).
  lia.
Qed.

(** The value of [rnd_pos] with numerator and denominator scaled by any
    large enough power of two. *)
Lemma rnd_pos_scaled (n d s : Z) :
  0 <= s → 0 <= s + exponent n d →
  (rnd_pos n d
   == Qmake (significand n d * 2 ^ (s + exponent n d)) (Z.to_pos (2 ^ s)))%Q.
Proof.
  intros Hs Hse. unfold rnd_pos.
  assert (0 < 2 ^ s) as Hp by (apply Z.pow_pos_nonneg; lia).
  destruct (0 <=? exponent n d) eqn:He.
  - apply Z.leb_le in He. unfold Qeq, inject_Z. cbn [Qnum Qden].
    rewrite Z2Pos.id by done.
    rewrite (Z.add_comm s), Z.pow_add_r by lia. lia.
  - apply Z.leb_gt in He.
    assert (0 < 2 ^ (- exponent n d)) by (apply Z.pow_pos_nonneg; lia).
    unfold Qeq. cbn [Qnum Qden]. rewrite !Z2Pos.id by done.
    assert (2 ^ s = 2 ^ (s + exponent n d) * 2 ^ (- exponent n d)) as ->
      by (rewrite <- Z.pow_add_r by lia; f_equal; lia).
    lia.
Qed.

Lemma rnd_pos_mono (n d n' d' : Z) :
  0 < n → 0 < d → 0 < n' → 0 < d' → n * d' <= n' * d →
  (rnd_pos n d <= rnd_pos n' d')%Q.
Proof.
  intros Hn Hd Hn' Hd' Hle.
  pose proof (ilog2_mono n d n' d' Hn Hd Hn' Hd' Hle) as Hk.
  pose proof (exponent_ge n d) as He1.
  pose proof (exponent_ge n' d') as He2.
  set (s := 1074).
  rewrite (rnd_pos_scaled n d s), (rnd_pos_scaled n' d' s) by (subst s; lia).
  assert (0 < 2 ^ s) as Hp by done.
  unfold Qle. cbn [Qnum Qden]. rewrite Z2Pos.id by done.
  apply Z.mul_le_mono_nonneg_r; [lia|].
  destruct (significand_bound n d Hn Hd) as [Hm0 Hm1].
  destruct (significand_bound n' d' Hn' Hd') as [Hm0' Hm1'].
  assert (exponent n d <= exponent n' d') as Hee
    by (unfold exponent; lia).
  destruct (Z.eq_dec (exponent n d) (exponent n' d')) as [Heq|Hne].
  - rewrite <- Heq.
    assert (0 < 2 ^ (s + exponent n d)) by (apply Z.pow_pos_nonneg; lia).
    apply Z.mul_le_mono_nonneg_r; [lia|].
    unfold significand. rewrite <- Heq.
    destruct (0 <=? exponent n d) eqn:E.
    + apply Z.leb_le in E.
      assert (0 < 2 ^ exponent n d) by (apply Z.pow_pos_nonneg; lia).
      apply rhe_div_mono; nia.
    + apply rhe_div_mono; [done..|].
      assert (0 <= 2 ^ (- exponent n d)) by (apply Z.pow_nonneg; lia).
      nia.
  - assert (-1074 <= ilog2 n' d' - 52) as Hnorm
      by (unfold exponent in *; lia).
    pose proof (significand_normal n' d' Hn' Hd' Hnorm) as Hm'.
    assert (2 ^ (s + exponent n' d')
            = 2 ^ (s + exponent n d)
              * 2 ^ (exponent n' d' - exponent n d)) as ->
      by (rewrite <- Z.pow_add_r by lia; f_equal; lia).
    assert (2 ^ 1 <= 2 ^ (exponent n' d' - exponent n d))
      by (apply Z.pow_le_mono_r; lia).
    assert (0 < 2 ^ (s + exponent n d)) by (apply Z.pow_pos_nonneg; lia).
    change (2 ^ 1) with 2 in *. change (2 ^ 53) with (2 * 2 ^ 52) in *.
    set (A := 2 ^ (s + exponent n d)) in *.
    set (P := 2 ^ (exponent n' d' - exponent n d)) in *.
    assert (significand n d * A <= 2 ^ 52 * (2 * A)) by nia.
    assert (2 * A <= A * P) by nia.
    assert (2 ^ 52 * (2 * A) <= significand n' d' * (A * P))
      by (apply Z.mul_le_mono_nonneg; lia).
    lia.
Qed.

Lemma rnd_mono (x y : Q) : (0 <= x)%Q → (x <= y)%Q → (rnd x <= rnd y)%Q.
Proof.
  intros Hx Hxy.
  assert (0 <= y)%Q as Hy by (by apply (Qle_trans _ x)).
  destruct x as [n d], y as [n' d']. unfold rnd. cbn [Qnum Qden].
  unfold Qle in Hx, Hxy, Hy. cbn [Qnum Qden] in *.
  destruct n as [|n|n]; [|..|lia].
  - destruct n' as [|n'|n']; [done| |lia].
    rewrite Qred_correct. by apply rnd_pos_nonneg.
  - destruct n' as [|n'|n']; [lia| |lia].
    rewrite !Qred_correct. apply rnd_pos_mono; lia.
Qed.

Lemma round3_mono (x y : Q) :
  (0 <= x)%Q → (x <= y)%Q → (round3 x <= round3 y)%Q.
Proof.
  intros Hx Hxy. unfold round3, rhe.
  assert (0 <= x * 1000)%Q as Hx' by (by apply Qmult_le_0_compat).
  assert (x * 1000 <= y * 1000)%Q as Hxy' by (by apply Qmult_le_compat_r).
  destruct (x * 1000)%Q as [n d], (y * 1000)%Q as [n' d'].
  unfold Qle in Hx', Hxy'. cbn [Qnum Qden] in *.
  assert (0 <= rhe_div n (Z.pos d)) by (apply rhe_div_nonneg; lia).
  assert (rhe_div n (Z.pos d) <= rhe_div n' (Z.pos d'))
    by (apply rhe_div_mono; lia).
  apply rnd_mono; unfold Qle; cbn [Qnum Qden]; lia.
Qed.

End RoundingOrder.

(** ** Order properties of the scores and of the means *)

Section ScoreOrder.

Lemma length_filter_mono {A : Type} (P P' : A → Prop)
    `{∀ x, Decision (P x)} `{∀ x, Decision (P' x)} (l : list A) :
  (∀ x, P x → P' x) →
  (length (filter P l) <= length (filter P' l))%nat.
Proof.
  intros Himp. induction l as [|x l IH]; [done|].
  rewrite !filter_cons.
  destruct (decide (P x)) as [HP|HP], (decide (P' x)) as [HP'|HP'];
    simpl; try lia.
  by destruct HP'; apply Himp.
Qed.

Lemma fraction_among_mono (tokens pool pool' : list string) :
  (∀ t, t ∈ pool → t ∈ pool') →
  (fraction_among tokens pool <= fraction_among tokens pool')%Q.
Proof.
  intros Hsub. unfold fraction_among.
  destruct tokens as [|t ts]; [done|].
  pose proof (length_filter_mono (λ t, t ∈ pool) (λ t, t ∈ pool')
                (t :: ts) Hsub) as Hlen.
  apply rnd_mono; [apply div_nonneg; unfold Py.len; lia|].
  unfold Qdiv. apply Qmult_le_compat_r.
  - unfold Py.len, Qle. simpl. lia.
  - apply Qinv_le_0_compat. unfold Py.len, Qle. simpl. lia.
Qed.

Lemma capped_mono (x y : Q) :
  (0 <= x)%Q → (x <= y)%Q →
  (round3 (Py.min x 1) <= round3 (Py.min y 1))%Q.
Proof.
  intros Hx Hxy. apply round3_mono.
  - by apply (min_1_unit x).
  - unfold Py.min. by apply Q.min_le_compat_r.
Qed.

Lemma recall_value (context : list string) :
  context ≠ [] →
  _calculate_recall_heuristic context
  = Ok (round3 (Py.min (rnd (inject_Z (Py.len context) / inject_Z 10)) 1)).
Proof.
  intros Hne. unfold _calculate_recall_heuristic.
  destruct context as [|d ds]; [done|]. cbn [Py.truthy_list negb].
  by rewrite (truediv_pos _ 10) by lia.
Qed.

(** X18.  Retrieving more documents never lowers the faithfulness nor the
    context recall: both scores of a context extended by further
    documents are at least those of the context. *)
Theorem more_documents_never_lower (response : string)
    (context extra : list string) :
  ∃ f f' c c',
    _calculate_faithfulness_heuristic response context = Ok f
    ∧ _calculate_faithfulness_heuristic response (context ++ extra) = Ok f'
    ∧ (f <= f')%Q
    ∧ _calculate_recall_heuristic context = Ok c
    ∧ _calculate_recall_heuristic (context ++ extra) = Ok c'
    ∧ (c <= c')%Q.
Proof.
  rewrite !faithfulness_spec.
  destruct (decide (context = [])) as [->|Hne].
  { destruct (recall_unit extra) as (c' & Hc' & [Hc0 _]).
    exists 0%Q, (spec_faithfulness response extra), 0%Q, c'.
    split; [by destruct response|]. split; [done|].
    split; [apply spec_faithfulness_unit|]. by repeat split. }
  assert (context ++ extra ≠ []) as Hne' by (by destruct context).
  rewrite (recall_value context Hne), (recall_value _ Hne').
  eexists _, _, _, _. split; [done|]. split; [done|].
  split; [|split; [done|split; [done|]]].
  - unfold spec_faithfulness. destruct response as [|a s]; [done|].
    destruct context as [|d ds]; [done|]. cbn [app].
    apply capped_mono; [apply fraction_among_nonneg|].
    apply fraction_among_mono. intros t.
    rewrite !documents_tokens_elem. intros (doc & Hdoc & Ht).
    exists doc. split; [|done].
    change (d :: ds ++ extra) with ((d :: ds) ++ extra).
    apply elem_of_app. by left.
  - apply capped_mono.
    + apply rnd_nonneg, div_nonneg; unfold Py.len; lia.
    + apply rnd_mono; [apply div_nonneg; unfold Py.len; lia|].
      unfold Qdiv. apply Qmult_le_compat_r; [|done].
      unfold Py.len, Qle. cbn [inject_Z Qnum Qden].
      rewrite length_app. lia.
Qed.

Lemma mean_between (l : list Q) (lo hi : Q) :
  l ≠ [] → thousandth lo → thousandth hi →
  Forall (λ x, (lo <= x)%Q ∧ (x <= hi)%Q) l →
  (lo <= round3 (arithmetic_mean l))%Q
  ∧ (round3 (arithmetic_mean l) <= hi)%Q.
Proof.
  intros Hne Hlo Hhi Hall.
  destruct (thousandth_fixed lo Hlo) as [Hlo3 Hlor].
  destruct (thousandth_fixed hi Hhi) as [Hhi3 Hhir].
  destruct (thousandth_unit lo Hlo) as [Hlo0 _].
  assert (0 < inject_Z (Py.len l))%Q as Hn.
  { destruct l; [done|]. unfold Py.len, Qlt. simpl. lia. }
  assert (inject_Z (Py.len l) * lo <= Py.sumQ l
          ∧ Py.sumQ l <= inject_Z (Py.len l) * hi)%Q as [Hs1 Hs2].
  { clear Hne Hn. unfold Py.len, Py.sumQ.
    induction Hall as [|x l [Hx1 Hx2] _ [IH1 IH2]]; cbn [foldr length].
    - split; simpl; by rewrite Qmult_0_l.
    - rewrite Nat2Z.inj_succ, <- Z.add_1_l, inject_Z_plus.
      rewrite !Qmult_plus_distr_l, !Qmult_1_l.
      split; by apply Qplus_le_compat. }
  assert (lo <= Py.sumQ l / inject_Z (Py.len l))%Q as Hm1.
  { apply Qle_shift_div_l; [done|]. by rewrite Qmult_comm. }
  assert (Py.sumQ l / inject_Z (Py.len l) <= hi)%Q as Hm2.
  { apply Qle_shift_div_r; [done|]. by rewrite Qmult_comm. }
  unfold arithmetic_mean. split.
  - rewrite <- Hlo3 at 1. apply round3_mono; [done|].
    rewrite <- Hlor at 1. by apply rnd_mono.
  - rewrite <- Hhi3 at 1.
    assert (0 <= rnd (Py.sumQ l / inject_Z (Py.len l)))%Q
      by (apply rnd_nonneg; by apply (Qle_trans _ lo)).
    apply round3_mono; [done|].
    rewrite <- Hhir at 1.
    apply rnd_mono; [by apply (Qle_trans _ lo)|done].
Qed.

(** X19.  Each mean of a role lies between the least and the greatest of
    the scores it averages: if a given one of the five scores of every
    evaluation of the role lies between two three-digit bounds, so does
    the corresponding mean of the role. *)
Theorem role_mean_between_scores (env : Env) (self : RagasEvaluator)
    (role : string) (i : nat) (lo hi : Q) :
  role ∈ roles_of (evaluations self) →
  thousandth lo → thousandth hi →
  (∀ e, e ∈ of_role role (evaluations self) →
        ∃ x, evaluation_scores e !! i = Some x ∧ (lo <= x)%Q ∧ (x <= hi)%Q) →
  ∃ a r m,
    calculate_aggregate_metrics env self = Ok (Aggregate a)
    ∧ by_role a !! role = Some r
    ∧ means_list (role_means r) !! i = Some m
    ∧ (lo <= m)%Q ∧ (m <= hi)%Q.
Proof.
  intros Hrole Hlo Hhi Hall. unfold roles_of in Hrole.
  apply list_elem_of_fmap in Hrole as (e0 & -> & He0).
  destruct (role_entry env self e0 He0) as (b & -> & Hb & Hcount).
  set (evs := of_role (user_role (ev_metadata e0)) (evaluations self)) in *.
  assert (evs ≠ []) as Hne
    by (intros Hnil; rewrite Hnil in Hcount; unfold Py.len in Hcount;
        simpl in Hcount; lia).
  assert (∀ f : Evaluation → Q,
            (∀ e, evaluation_scores e !! i = Some (f e)) →
            (lo <= round3 (arithmetic_mean (f <$> evs)))%Q
            ∧ (round3 (arithmetic_mean (f <$> evs)) <= hi)%Q) as Hmean.
  { intros f Hf. apply mean_between; [by destruct evs|done|done|].
    apply Forall_fmap, Forall_forall. intros e He.
    destruct (Hall e He) as (x & Hx & Hbounds).
    rewrite Hf in Hx. injection Hx as <-. exact Hbounds. }
  assert (∃ e1, e1 ∈ evs) as [e1 He1] by (destruct evs; [done|eexists; left]).
  destruct (Hall e1 He1) as (x1 & Hx1 & _).
  eexists _, _.
  destruct i as [|[|[|[|[|i]]]]]; [..|discriminate Hx1];
    eexists; (split; [done|]); (split; [exact Hb|]);
    (split; [reflexivity|]).
  - by apply (Hmean (λ e, faithfulness (metrics e))).
  - by apply (Hmean (λ e, answer_relevancy (metrics e))).
  - by apply (Hmean (λ e, context_precision (metrics e))).
  - by apply (Hmean (λ e, context_recall (metrics e))).
  - by apply (Hmean overall_score).
Qed.

Lemma role_mean_between_scores_witness :
  ∃ a r m,
    calculate_aggregate_metrics env_raising scored_evaluator
    = Ok (Aggregate a)
    ∧ by_role a !! "unknown"%string = Some r
    ∧ means_list (role_means r) !! 3%nat = Some m
    ∧ (rnd (0 # 1000) <= m)%Q ∧ (m <= rnd (100 # 1000))%Q.
Proof.
  apply (role_mean_between_scores env_raising scored_evaluator
           "unknown" 3 (rnd (0 # 1000)) (rnd (100 # 1000))).
  - right. left.
  - exists 0%Z. split; [lia | reflexivity].
  - exists 100%Z. split; [lia | reflexivity].
  - apply Forall_forall.
    assert (of_role "unknown" (evaluations scored_evaluator)
            = unknown_evaluations) as -> by (vm_compute; reflexivity).
    unfold unknown_evaluations.
    repeat constructor; eexists; (split; [reflexivity|]);
      split; vm_compute; discriminate.
Defined.

End ScoreOrder.
